(** * astroid.node_classes: branch exclusivity, lookup filtering, unpacking

    A shallow embedding of the functions of [astroid/node_classes.py] that
    work on an already built syntax tree:

    - [are_exclusive]            (module level function)
    - [LookupMixIn._filter_stmts]
    - [Comprehension._get_filtered_stmts]
    - [ExceptHandler.catch]
    - [unpack_infer]             (module level generator)
    - [Dict.getitem]

    Python objects live in a heap indexed by object identity; the [is]
    operator is equality of identities.  Exceptions are results of an error
    monad, [while] loops and recursive generators take fuel. *)

From Stdlib Require Import ZArith.
From stdpp Require Import gmap strings list.

Open Scope string_scope.
Open Scope list_scope.

(** ** Python values and exceptions *)

(** Identity of a node object ([id(node)]). *)
Abbreviation node := nat.

(** The constants a [Const] node can carry, as far as the embedding needs
    them ([value] of [Const]; the lookup key of [Dict.getitem]). *)
Inductive pyconst :=
  | PyNone
  | PyBool (b : bool)
  | PyInt (z : Z)
  | PyStr (s : string).

#[global] Instance pyconst_eq_dec : EqDecision pyconst.
Proof. solve_decision. Defined.

(** Python's [==] on these constants: [bool] is a subclass of [int], so
    [True == 1] and [False == 0]; values of unrelated types are unequal. *)
Definition py_int_of (c : pyconst) : option Z :=
  match c with
  | PyBool true => Some 1%Z
  | PyBool false => Some 0%Z
  | PyInt z => Some z
  | _ => None
  end.

Definition py_eq (a b : pyconst) : bool :=
  match py_int_of a, py_int_of b with
  | Some x, Some y => bool_decide (x = y)
  | None, None => bool_decide (a = b)
  | _, _ => false
  end.

(** Exception classes raised by the embedded code, by class only. *)
Inductive exn :=
  | AstroidError            (* locate_child: child not found *)
  | AttributeError          (* attribute or method missing on the object *)
  | KeyError                (* dict subscript on an absent key *)
  | IndexError (arg : option pyconst)  (* list index out of range; Dict.getitem *)
  | ValueError              (* list.index: value not in the list *)
  | TypeError               (* unorderable operands, Python 3 *)
  | AssertionError
  | StopIteration           (* next() on an exhausted iterator *)
  | RuntimeError            (* a StopIteration left the body of a generator *)
  | InferenceError.         (* raised by the inference engine *)

#[global] Instance exn_eq_dec : EqDecision exn.
Proof. solve_decision. Defined.

(** Outcome of a call: a value, a raised exception, or the loop did not
    finish within the fuel it was given. *)
Inductive res (A : Type) :=
  | Ok (a : A)
  | Raise (e : exn)
  | OutOfFuel.
Arguments Ok {A} a.
Arguments Raise {A} e.
Arguments OutOfFuel {A}.

#[global] Instance res_ret : MRet res := fun A a => Ok a.
#[global] Instance res_bind : MBind res := fun A B k m =>
  match m with
  | Ok a => k a
  | Raise e => Raise e
  | OutOfFuel => OutOfFuel
  end.

(** Short-circuit [and] / [or] whose operands may raise. *)
Definition pand (a b : res bool) : res bool :=
  a ≫= λ x : bool, if x then b else Ok false.
Definition por (a b : res bool) : res bool :=
  a ≫= λ x : bool, if x then Ok true else b.
Arguments pand : simpl never.
Arguments por : simpl never.

(** ** Node objects *)

(** The node classes of [node_classes.py] that the embedded functions test
    with [isinstance]; every other class is [Other] with its class name and
    its [_astroid_fields]. *)
Inductive class :=
  | If | TryExcept | ExceptHandler
  | Name | AssignName | DelName | Const
  | List | Tuple | Dict
  | Comprehension | For
  | Other (clsname : string) (fields : list string).

#[global] Instance class_eq_dec : EqDecision class.
Proof. solve_decision. Defined.

(** The class attribute [_astroid_fields] of each class. *)
Definition _astroid_fields (c : class) : list string :=
  match c with
  | If => ["test"; "body"; "orelse"]
  | TryExcept => ["body"; "handlers"; "orelse"]
  | ExceptHandler => ["type"; "name"; "body"]
  | List | Tuple => ["elts"]
  | Dict => ["items"]
  | Comprehension => ["target"; "iter"; "ifs"]
  | For => ["target"; "iter"; "body"; "orelse"]
  | Name | AssignName | DelName | Const => []
  | Other _ fs => fs
  end.

(** What an attribute named by [_astroid_fields] holds. *)
Inductive field_value :=
  | FNone                                (* None *)
  | FNode (n : node)                     (* one child node *)
  | FSeq (ns : list node)                (* a sequence of child nodes *)
  | FPairs (kvs : list (node * node)).   (* Dict.items: (key, value) tuples *)

Record object := {
  cls : class;                     (* type(node) *)
  parent : option node;            (* node.parent *)
  getattr : string -> field_value; (* getattr(node, field) *)
  name : option string;            (* node.name, of the Name classes *)
  value : pyconst;                 (* node.value, of Const (None by default) *)
}.

(** A Python reference as the [is] operator sees it: a node object, or the
    sequence object held by a field of a node (every sequence field holds a
    sequence object of its own). *)
Inductive pyref :=
  | RNode (n : node)
  | RSeq (owner : node) (field : string).

#[global] Instance pyref_eq_dec : EqDecision pyref.
Proof. solve_decision. Defined.

(** An inferred value: the sentinel [util.YES] or a node object. *)
Inductive inferred :=
  | YES
  | Obj (n : node).

#[global] Instance inferred_eq_dec : EqDecision inferred.
Proof. solve_decision. Defined.

(** What a generator produced when it was run to its end: the values it
    yielded, then how it ended. *)
Inductive ending :=
  | Done                  (* the generator returned *)
  | Raised (e : exn)      (* an exception left the generator *)
  | Starved.              (* out of fuel *)

#[global] Instance ending_eq_dec : EqDecision ending.
Proof. solve_decision. Defined.

Definition gen (A : Type) : Type := (list A * ending)%type.

(** The heap: the node objects, and the methods of [bases.NodeNG], of the
    mixins and of the inference engine that [node_classes.py] calls and that
    are defined outside of it. *)
Record heap := {
  (** [six.PY3] *)
  PY3 : bool;
  obj : node -> object;
  (** [node.nodes_of_class(klass)], as a list *)
  nodes_of_class : node -> class -> list node;
  (** [node.infer(context)], run to its end *)
  infer : node -> gen inferred;
  (** [node.frame()] and [node.statement()] *)
  frame : node -> res node;
  statement : node -> res node;
  (** the property [node.fromlineno] *)
  fromlineno : node -> option Z;
  (** [node.assign_type()]; [None] when the node has no such attribute *)
  assign_type : node -> option node;
  (** [node.has_base(other)] *)
  has_base : node -> node -> bool;
  (** the class attribute [optional_assign] of an assignment node *)
  optional_assign : node -> bool;
  (** [node.parent_of(other)] *)
  parent_of : node -> node -> bool;
  (** [_get_filtered_stmts] of the mixins, for the assignment nodes that are
      no [Comprehension]: arguments self, lookup_node, node, stmts, mystmt *)
  mixin_get_filtered_stmts :
    node -> node -> node -> list node -> node -> res (list node * bool);
}.

Section WithHeap.
Variable h : heap.

Definition isinstance (n : node) (c : class) : bool :=
  bool_decide (cls (obj h n) = c).

(** Modelled from the spec: [locate_child] of [bases.NodeNG], which is not
    part of this file.  Given a child it identifies the named field of the
    node that leads to it, going through [_astroid_fields] in order.  The
    second component is the object the field holds: the child itself for a
    field with one node, the sequence for a field with a sequence; this is
    what [are_exclusive] compares with [is].  A child found in no field
    raises [AstroidError]. *)
Fixpoint locate_child_in (n : node) (fields : list string) (child : node)
  : res (string * pyref) :=
  match fields with
  | [] => Raise AstroidError
  | field :: rest =>
      match getattr (obj h n) field with
      | FNode c =>
          if bool_decide (child = c) then Ok (field, RNode child)
          else locate_child_in n rest child
      | FSeq cs =>
          if bool_decide (child ∈ cs) then Ok (field, RSeq n field)
          else locate_child_in n rest child
      | FNone | FPairs _ => locate_child_in n rest child
      end
  end.

Definition locate_child (n child : node) : res (string * pyref) :=
  locate_child_in n (_astroid_fields (cls (obj h n))) child.

(** ** [ExceptHandler.catch]

    Returns [True], or [None] by falling off the end: [Some true] and
    [None] here. *)
Fixpoint catch_loop (names : list node) (exceptions : list string)
  : res (option bool) :=
  match names with
  | [] => Ok None
  | n :: rest =>
      match name (obj h n) with
      | None => Raise AttributeError
      | Some nm =>
          if bool_decide (nm ∈ exceptions) then Ok (Some true)
          else catch_loop rest exceptions
      end
  end.

Definition catch (self : node) (exceptions : option (list string))
  : res (option bool) :=
  if isinstance self ExceptHandler then
    match getattr (obj h self) "type", exceptions with
    | FNone, _ => Ok (Some true)
    | _, None => Ok (Some true)
    | FNode ty, Some exs => catch_loop (nodes_of_class h ty Name) exs
    | _, Some _ => Raise AttributeError
    end
  else Raise AttributeError.

(** Truth value of what [catch] returns. *)
Definition truthy (v : option bool) : bool :=
  match v with
  | Some b => b
  | None => false
  end.

(** ** [are_exclusive] *)

(** First loop: index stmt1's parents.  [stmt1_parents] and [children] are
    the two dicts of the source. *)
Fixpoint index_parents (fuel : nat) (node_ : option node) (previous : node)
    (stmt1_parents : gmap nat nat) (children : gmap nat nat)
  : res (gmap nat nat * gmap nat nat) :=
  match node_ with
  | None => Ok (stmt1_parents, children)
  | Some n =>
      match fuel with
      | O => OutOfFuel
      | S fuel' =>
          index_parents fuel' (parent (obj h n)) n
            (<[n := 1]> stmt1_parents) (<[n := previous]> children)
      end
  end.

(** [children[node]] *)
Definition subscript (children : gmap nat nat) (n : node) : res node :=
  match children !! n with
  | Some c => Ok c
  | None => Raise KeyError
  end.

(** The body of [if node in stmt1_parents:], up to its [return False]. *)
Definition common_parent (n previous : node) (children : gmap nat nat)
    (exceptions : option (list string)) : res bool :=
  if isinstance n If && bool_decide (exceptions = None) then
    r2 ← locate_child n previous;
    c1 ← subscript children n;
    r1 ← locate_child n c1;
    if bool_decide (r2.2 <> r1.2) then Ok true else Ok false
  else if isinstance n TryExcept then
    '(c2attr, c2node) ← locate_child n previous;
    c1 ← subscript children n;
    '(c1attr, c1node) ← locate_child n c1;
    if bool_decide (c1node <> c2node) then
      (cond ←
         por (pand (Ok (String.eqb c2attr "body"))
                (pand (Ok (String.eqb c1attr "handlers"))
                   (c ← subscript children n;
                    v ← catch c exceptions; Ok (truthy v))))
        (por (pand (Ok (String.eqb c2attr "handlers"))
                (pand (Ok (String.eqb c1attr "body"))
                   (v ← catch previous exceptions; Ok (truthy v))))
        (por (Ok (String.eqb c2attr "handlers" && String.eqb c1attr "orelse"))
             (Ok (String.eqb c2attr "orelse" && String.eqb c1attr "handlers"))));
       if cond : bool then Ok true else Ok false)
    else if String.eqb c2attr "handlers" && String.eqb c1attr "handlers" then
      Ok (bool_decide (previous <> c1))
    else Ok false
  else Ok false.

(** Second loop: climb among stmt2's parents until a common parent. *)
Fixpoint climb (fuel : nat) (node_ : option node) (previous : node)
    (stmt1_parents children : gmap nat nat)
    (exceptions : option (list string)) : res bool :=
  match node_ with
  | None => Ok false
  | Some n =>
      match fuel with
      | O => OutOfFuel
      | S fuel' =>
          if bool_decide (is_Some (stmt1_parents !! n)) then
            common_parent n previous children exceptions
          else
            climb fuel' (parent (obj h n)) n stmt1_parents children exceptions
      end
  end.

Definition are_exclusive (fuel : nat) (stmt1 stmt2 : node)
    (exceptions : option (list string)) : res bool :=
  '(stmt1_parents, children) ←
     index_parents fuel (parent (obj h stmt1)) stmt1 ∅ ∅;
  climb fuel (parent (obj h stmt2)) stmt2 stmt1_parents children exceptions.

(** ** [LookupMixIn._filter_stmts] *)

(** [Comprehension._get_filtered_stmts] *)
Definition Comprehension_get_filtered_stmts (self lookup_node node_ : node)
    (stmts : list node) (mystmt : node) : res (list node * bool) :=
  if bool_decide (self = mystmt) then
    if isinstance lookup_node Const || isinstance lookup_node Name then
      Ok ([lookup_node], true)
    else Ok (stmts, false)
  else
    s ← statement h self;
    if bool_decide (s = mystmt) then Ok ([node_], true)
    else Ok (stmts, false).

(** Method dispatch of [assign_type._get_filtered_stmts(...)]. *)
Definition _get_filtered_stmts (self lookup_node node_ : node)
    (stmts : list node) (mystmt : node) : res (list node * bool) :=
  if isinstance self Comprehension then
    Comprehension_get_filtered_stmts self lookup_node node_ stmts mystmt
  else mixin_get_filtered_stmts h self lookup_node node_ stmts mystmt.

(** [assign_type.optional_assign]: [True] on [Comprehension] and [For],
    inherited from the mixins otherwise. *)
Definition get_optional_assign (n : node) : bool :=
  match cls (obj h n) with
  | Comprehension | For => true
  | _ => optional_assign h n
  end.

(** [a > b] where [a] may be [None]: [None] is smaller than every number
    in Python 2 and unorderable in Python 3. *)
Definition py_gt (a : option Z) (b : Z) : res bool :=
  match a with
  | Some x => Ok (bool_decide (b < x)%Z)
  | None => if PY3 h then Raise TypeError else Ok false
  end.

(** [l.index(x)] *)
Fixpoint index {A} `{EqDecision A} (l : list A) (x : A) : option nat :=
  match l with
  | [] => None
  | y :: l' => if bool_decide (y = x) then Some O else S <$> index l' x
  end.

(** [l[i]] for [i >= 0] *)
Definition item {A} (l : list A) (i : nat) : res A :=
  match l !! i with
  | Some x => Ok x
  | None => Raise (IndexError None)
  end.

(** The frame the lookup really starts from (first lines of
    [_filter_stmts]). *)
Definition effective_frame (self : node) (offset : Z) : res node :=
  if bool_decide (offset = (-1)%Z) then
    f ← frame h self;
    match parent (obj h f) with
    | None => Raise AttributeError
    | Some p => frame h p
    end
  else
    myframe ← frame h self;
    s ← statement h self;
    if bool_decide (s = myframe) then
      match parent (obj h myframe) with
      | Some p => frame h p
      | None => Ok myframe
      end
    else Ok myframe.

(** [mylineno] *)
Definition reference_line (myframe frame_ mystmt : node) (offset : Z) : Z :=
  match fromlineno h mystmt with
  | Some l => if bool_decide (myframe = frame_) then (l + offset)%Z else 0%Z
  | None => 0%Z
  end.

(** State of the [for] loop: the lists [_stmts] and [_stmt_parents], or the
    loop was left with [break]. *)
Inductive scan :=
  | Running (_stmts : list node) (_stmt_parents : list (option node))
  | Broken (_stmts : list node).

(** The [try: pindex = ... except ValueError: pass else: ...] block.  The
    boolean says whether the block ended with [continue]. *)
Definition same_block (fuel : nat) (node_ stmt assign_type_ : node)
    (optional_assign_ : bool) (_stmts : list node)
    (_stmt_parents : list (option node))
  : res (list node * list (option node) * bool) :=
  match index _stmt_parents (parent (obj h stmt)) with
  | None => Ok (_stmts, _stmt_parents, false)
  | Some pindex =>
      earlier ← item _stmts pindex;
      match assign_type h earlier with
      | None => Raise AttributeError
      | Some at1 =>
          if parent_of h at1 assign_type_ then
            Ok (_stmts, _stmt_parents, true)
          else
            keep ← por (Ok optional_assign_)
                       (are_exclusive fuel earlier node_ None);
            if keep : bool then Ok (_stmts, _stmt_parents, false)
            else Ok (delete pindex _stmts, delete pindex _stmt_parents, false)
      end
  end.

(** How far a round of the loop got before its [isinstance] tests: it left
    the loop ([break]), went on to the next candidate ([continue]), or
    reached the tests with the two lists, [stmt] and [optional_assign]. *)
Inductive round :=
  | Leave (_stmts : list node)
  | Skip (_stmts : list node) (_stmt_parents : list (option node))
  | Go (_stmts : list node) (_stmt_parents : list (option node))
       (stmt : node) (optional_assign_ : bool).

(** One round of [for node in stmts:], from its first line to the end of
    the [try ... except ValueError ... else] block. *)
Definition visit_guards (fuel : nat) (self mystmt : node) (mylineno : Z)
    (node_ : node) (_stmts : list node) (_stmt_parents : list (option node))
  : res round :=
  stmt ← statement h node_;
  beyond ← pand (Ok (bool_decide (0 < mylineno)%Z))
                (py_gt (fromlineno h stmt) mylineno);
  if beyond : bool then Ok (Leave _stmts)
  else
    match assign_type h node_ with
    | None => Raise AssertionError
    | Some assign_type_ =>
        if has_base h node_ self then Ok (Leave _stmts)
        else
          '(_stmts, done) ←
             _get_filtered_stmts assign_type_ self node_ _stmts mystmt;
          if done : bool then Ok (Leave _stmts)
          else
            let optional_assign_ := get_optional_assign assign_type_ in
            if optional_assign_ && parent_of h assign_type_ self then
              Ok (Skip [node_] [parent (obj h stmt)])
            else
              '(_stmts, _stmt_parents, continue_) ←
                 same_block fuel node_ stmt assign_type_ optional_assign_
                   _stmts _stmt_parents;
              if continue_ : bool then Ok (Skip _stmts _stmt_parents)
              else Ok (Go _stmts _stmt_parents stmt optional_assign_)
    end.

(** The rest of the round: the tests on [AssignName] and [DelName], and the
    final [append]. *)
Definition visit_bind (fuel : nat) (self mystmt node_ stmt : node)
    (optional_assign_ : bool) (_stmts : list node)
    (_stmt_parents : list (option node)) : res scan :=
  if isinstance node_ DelName then Ok (Running [] [])
  else
    let '(_stmts, _stmt_parents) :=
      if isinstance node_ AssignName
         && negb optional_assign_
         && bool_decide (parent (obj h stmt) = parent (obj h mystmt))
      then ([], []) else (_stmts, _stmt_parents) in
    excl ← are_exclusive fuel self node_ None;
    if excl : bool then Ok (Running _stmts _stmt_parents)
    else Ok (Running (_stmts ++ [node_])
               (_stmt_parents ++ [parent (obj h stmt)])).

Definition visit (fuel : nat) (self mystmt : node) (mylineno : Z)
    (node_ : node) (_stmts : list node) (_stmt_parents : list (option node))
  : res scan :=
  r ← visit_guards fuel self mystmt mylineno node_ _stmts _stmt_parents;
  match r with
  | Leave _stmts => Ok (Broken _stmts)
  | Skip _stmts _stmt_parents => Ok (Running _stmts _stmt_parents)
  | Go _stmts _stmt_parents stmt optional_assign_ =>
      visit_bind fuel self mystmt node_ stmt optional_assign_
        _stmts _stmt_parents
  end.

(** The [for] loop, from a given state of the two lists. *)
Fixpoint scan_loop (fuel : nat) (self mystmt : node) (mylineno : Z)
    (stmts : list node) (_stmts : list node)
    (_stmt_parents : list (option node)) : res scan :=
  match stmts with
  | [] => Ok (Running _stmts _stmt_parents)
  | node_ :: rest =>
      st ← visit fuel self mystmt mylineno node_ _stmts _stmt_parents;
      match st with
      | Broken _stmts => Ok (Broken _stmts)
      | Running _stmts _stmt_parents =>
          scan_loop fuel self mystmt mylineno rest _stmts _stmt_parents
      end
  end.

(** [_stmts] when the loop is over. *)
Definition scanned (st : scan) : list node :=
  match st with
  | Running _stmts _ => _stmts
  | Broken _stmts => _stmts
  end.

Definition _filter_stmts (fuel : nat) (self : node) (stmts : list node)
    (frame_ : node) (offset : Z) : res (list node) :=
  myframe ← effective_frame self offset;
  if negb (bool_decide (myframe = frame_)) || bool_decide (self = frame_) then
    Ok stmts
  else
    mystmt ← statement h self;
    let mylineno := reference_line myframe frame_ mystmt offset in
    st ← scan_loop fuel self mystmt mylineno stmts [] [];
    Ok (scanned st).

(** ** [unpack_infer] *)

(** [for x in xs: for y in k(x): yield y], where the iterable [xs] ends
    with [e]. *)
Fixpoint yield_from_each {A B} (xs : list A) (e : ending) (k : A -> gen B)
  : gen B :=
  match xs with
  | [] => ([], e)
  | x :: rest =>
      match k x with
      | (ys, Done) =>
          let '(zs, e') := yield_from_each rest e k in (ys ++ zs, e')
      | (ys, e') => (ys, e')
      end
  end.

(** [next(g)] on a fresh generator. *)
Definition next {A} (g : gen A) : res A :=
  match g with
  | (x :: _, _) => Ok x
  | ([], Done) => Raise StopIteration
  | ([], Raised e) => Raise e
  | ([], Starved) => OutOfFuel
  end.

(** How a [for] loop sees the end of its iterable: the [StopIteration] of
    the iterator is the end of the loop, any other exception goes through
    the loop. *)
Definition exhausted (e : ending) : ending :=
  match e with
  | Raised StopIteration => Done
  | _ => e
  end.

(** The interpreter: whether PEP 479 is in force (Python 3.7 on; before,
    with [from __future__ import generator_stop], which [node_classes.py]
    does not have). *)
Variable generator_stop : bool.

(** An exception raised in the body of a generator, outside of any [try],
    as the caller of the generator sees it.  A [StopIteration] ends the
    generator as a [return] does; with PEP 479 it is a [RuntimeError]. *)
Definition generator_raised (e : exn) : ending :=
  match e with
  | StopIteration => if generator_stop then Raised RuntimeError else Done
  | _ => Raised e
  end.

Fixpoint unpack_infer (fuel : nat) (stmt : node) : gen inferred :=
  match fuel with
  | O => ([], Starved)
  | S fuel' =>
      if isinstance stmt List || isinstance stmt Tuple then
        match getattr (obj h stmt) "elts" with
        | FSeq elts => yield_from_each elts Done (unpack_infer fuel')
        | _ => ([], Raised TypeError)
        end
      else
        match next (infer h stmt) with
        | Raise e => ([], generator_raised e)
        | OutOfFuel => ([], Starved)
        | Ok inferred_ =>
            if bool_decide (inferred_ = Obj stmt) then ([inferred_], Done)
            else
              let '(values, e) := infer h stmt in
              yield_from_each values (exhausted e)
                (fun inferred_ =>
                   match inferred_ with
                   | YES => ([YES], Done)
                   | Obj n => unpack_infer fuel' n
                   end)
        end
  end.

(** ** [Dict.getitem] *)

(** The inner loop [for inferredkey in key.infer(context):]; [true] when it
    reached [return value]. *)
Fixpoint key_matches (inferredkeys : list inferred) (lookup_key : pyconst)
  : bool :=
  match inferredkeys with
  | [] => false
  | YES :: rest => key_matches rest lookup_key
  | Obj k :: rest =>
      if isinstance k Const && py_eq (value (obj h k)) lookup_key then true
      else key_matches rest lookup_key
  end.

Fixpoint getitem_loop (items : list (node * node)) (lookup_key : pyconst)
  : res node :=
  match items with
  | [] => Raise (IndexError (Some lookup_key))
  | (key, value_) :: rest =>
      let '(inferredkeys, e) := infer h key in
      if key_matches inferredkeys lookup_key then Ok value_
      else
        match exhausted e with
        | Done => getitem_loop rest lookup_key
        | Raised exc => Raise exc
        | Starved => OutOfFuel
        end
  end.

Definition Dict_getitem (self : node) (lookup_key : pyconst) : res node :=
  match getattr (obj h self) "items" with
  | FPairs items => getitem_loop items lookup_key
  | FSeq [] => Raise (IndexError (Some lookup_key))
  | _ => Raise TypeError
  end.

End WithHeap.

(** ** [Arguments]: [_find_arg], [find_argname], [is_argument],
    [default_value] *)

(** The attributes of an [Arguments] node that these methods read.
    [args] may be [None] (builtin functions); [kw_defaults] has [None] for
    a keyword-only argument without default. *)
Record arguments := {
  args : option (list node);
  defaults : list node;
  kwonlyargs : list node;
  kw_defaults : list (option node);
  vararg : option string;
  kwarg : option string;
}.

(** What [default_value] comes to: a default, or [raise NoDefault()]. *)
Inductive defaulted :=
  | Default (value_ : node)
  | NoDefault.

Section ArgumentsMethods.
Variable h : heap.

(** [_find_arg(argname, args)] with [rec] false, from position [i] of the
    enumeration: a [Tuple] argument is stepped over. *)
Fixpoint _find_arg_flat (argname : string) (args_ : list node) (i : nat)
  : res (option (nat * node)) :=
  match args_ with
  | [] => Ok None
  | arg :: rest =>
      if isinstance h arg Tuple then _find_arg_flat argname rest (S i)
      else
        match name (obj h arg) with
        | None => Raise AttributeError
        | Some nm =>
            if String.eqb nm argname then Ok (Some (i, arg))
            else _find_arg_flat argname rest (S i)
        end
  end.

(** [_find_arg(argname, args, True)]: the elements of a [Tuple] argument
    are searched by a call with [rec] left to its default, false. *)
Fixpoint _find_arg_rec (argname : string) (args_ : list node) (i : nat)
  : res (option (nat * node)) :=
  match args_ with
  | [] => Ok None
  | arg :: rest =>
      if isinstance h arg Tuple then
        match getattr (obj h arg) "elts" with
        | FSeq elts =>
            found ← _find_arg_flat argname elts 0;
            match found with
            | Some r => Ok (Some r)
            | None => _find_arg_rec argname rest (S i)
            end
        | _ => Raise TypeError
        end
      else
        match name (obj h arg) with
        | None => Raise AttributeError
        | Some nm =>
            if String.eqb nm argname then Ok (Some (i, arg))
            else _find_arg_rec argname rest (S i)
        end
  end.

(** [(None, None)] is [None] here. *)
Definition _find_arg (argname : string) (args_ : list node) (rec : bool)
  : res (option (nat * node)) :=
  if rec then _find_arg_rec argname args_ 0
  else _find_arg_flat argname args_ 0.

Definition find_argname (self : arguments) (argname : string) (rec : bool)
  : res (option (nat * node)) :=
  match args self with
  | Some (arg :: rest) => _find_arg argname (arg :: rest) rec
  | _ => Ok None
  end.

Definition is_argument (self : arguments) (name_ : string) : res bool :=
  if bool_decide (Some name_ = vararg self) then Ok true
  else if bool_decide (Some name_ = kwarg self) then Ok true
  else
    found ← find_argname self name_ true;
    Ok (bool_decide (is_Some found)).

Definition default_value (self : arguments) (argname : string)
  : res defaulted :=
  match args self with
  | None => Raise TypeError
  | Some args_ =>
      found ← _find_arg argname args_ false;
      positional ←
        match found with
        | Some (i, _) =>
            let idx := (Z.of_nat i
                        - (Z.of_nat (length args_)
                           - Z.of_nat (length (defaults self))))%Z in
            if bool_decide (0 <= idx)%Z then
              d ← item (defaults self) (Z.to_nat idx); Ok (Some d)
            else Ok None
        | None => Ok None
        end;
      match positional with
      | Some d => Ok (Default d)
      | None =>
          found ← _find_arg argname (kwonlyargs self) false;
          match found with
          | Some (i, _) =>
              kd ← item (kw_defaults self) i;
              match kd with
              | Some d => Ok (Default d)
              | None => Ok NoDefault
              end
          | None => Ok NoDefault
          end
      end
  end.

End ArgumentsMethods.

(** ** [_container_getitem], [List.getitem], [Tuple.getitem]

    The sequence fields ([elts], [items], [args], [defaults], ...) are made
    by [zipper.NodeSequence], a class defined outside of [node_classes.py].
    They are taken here as sequences of Python: [len], iteration, and the
    subscripts by an integer of any sign and by a slice are those of [list]
    and [tuple]. *)

(** An index: an integer or a slice object. *)
Inductive pyindex :=
  | IInt (i : Z)
  | ISlice (start stop step : option Z).

(** [l[i]] for an integer [i] of any sign. *)
Definition list_getitem {A} (l : list A) (i : Z) : res A :=
  let n := Z.of_nat (length l) in
  if bool_decide (0 <= i < n)%Z then item l (Z.to_nat i)
  else if bool_decide (- n <= i < 0)%Z then item l (Z.to_nat (n + i))
  else Raise (IndexError None).

(** A bound of a slice brought into the list, as [slice.indices] does. *)
Definition slice_adjust (n step x : Z) : Z :=
  let x := if bool_decide (x < 0)%Z then (x + n)%Z else x in
  if bool_decide (x < 0)%Z then (if bool_decide (step < 0)%Z then -1 else 0)%Z
  else if bool_decide (n <= x)%Z then
         (if bool_decide (step < 0)%Z then n - 1 else n)%Z
  else x.

(** [slice(start, stop, step).indices(n)]; a step of zero is a
    [ValueError]. *)
Definition slice_indices (n : Z) (start stop step : option Z)
  : res (Z * Z * Z) :=
  let step_ := default 1%Z step in
  if bool_decide (step_ = 0)%Z then Raise ValueError
  else
    let start_ :=
      match start with
      | Some x => slice_adjust n step_ x
      | None => if bool_decide (step_ < 0)%Z then (n - 1)%Z else 0%Z
      end in
    let stop_ :=
      match stop with
      | Some x => slice_adjust n step_ x
      | None => if bool_decide (step_ < 0)%Z then (-1)%Z else n
      end in
    Ok (start_, stop_, step_).

(** The number of positions of [range(start, stop, step)]. *)
Definition slice_length (start stop step : Z) : nat :=
  Z.to_nat
    (if bool_decide (step < 0)%Z then
       if bool_decide (stop < start)%Z
       then (start - stop - 1) / (- step) + 1 else 0
     else
       if bool_decide (start < stop)%Z
       then (stop - start - 1) / step + 1 else 0)%Z.

(** [l[start:stop:step]] *)
Definition list_slice {A} (l : list A) (start stop step : option Z)
  : res (list A) :=
  '(start_, stop_, step_) ←
     slice_indices (Z.of_nat (length l)) start stop step;
  Ok (omap (fun k => l !! Z.to_nat (start_ + Z.of_nat k * step_)%Z)
        (seq 0 (slice_length start_ stop_ step_))).

(** What a [getitem] returns: a node of the tree, or a container made for
    the occasion, with its class, its parent and its elements. *)
Inductive gotten :=
  | Element (n : node)
  | Container (c : class) (parent_ : option node) (elts : list node).

Section ContainerMethods.
Variable h : heap.

Definition _container_getitem (instance : node) (elts : list node)
    (index_ : pyindex) : res gotten :=
  match index_ with
  | ISlice start stop step =>
      new_elts ← list_slice elts start stop step;
      Ok (Container (cls (obj h instance)) (parent (obj h instance)) new_elts)
  | IInt i => n ← list_getitem elts i; Ok (Element n)
  end.

(** [List.getitem] and [Tuple.getitem] *)
Definition container_getitem (self : node) (index_ : pyindex) : res gotten :=
  match getattr (obj h self) "elts" with
  | FSeq elts => _container_getitem self elts index_
  | _ => Raise TypeError
  end.

(** [_BaseContainer.bool_value] *)
Definition container_bool_value (self : node) : res bool :=
  match getattr (obj h self) "elts" with
  | FSeq elts => Ok (negb (bool_decide (elts = [])))
  | FNone => Ok false
  | _ => Ok true
  end.

(** ** [Dict]: [get_children], [last_child], [itered], [bool_value] *)

Definition Dict_items (self : node) : res (list (node * node)) :=
  match getattr (obj h self) "items" with
  | FPairs items => Ok items
  | FSeq [] => Ok []
  | _ => Raise TypeError
  end.

Definition Dict_get_children (self : node) : res (list node) :=
  items ← Dict_items self;
  Ok (flat_map (fun kv => [kv.1; kv.2]) items).

Definition Dict_last_child (self : node) : res (option node) :=
  items ← Dict_items self;
  match last items with
  | Some kv => Ok (Some kv.2)
  | None => Ok None
  end.

Definition Dict_itered (self : node) : res (list (node * node)) :=
  items ← Dict_items self;
  list_slice items None None (Some 2%Z).

Definition Dict_bool_value (self : node) : res bool :=
  items ← Dict_items self;
  Ok (negb (bool_decide (items = []))).

End ContainerMethods.

(** ** [Compare]: [get_children], [last_child] *)

(** [left] and [ops] of a [Compare] node; [ops] holds (operator,
    comparator) tuples. *)
Record compare := {
  Compare_left : node;
  Compare_ops : list (string * node);
}.

Definition Compare_get_children (self : compare) : list node :=
  Compare_left self :: map snd (Compare_ops self).

(** [self.ops[-1][1]] *)
Definition Compare_last_child (self : compare) : res node :=
  op ← list_getitem (Compare_ops self) (-1);
  Ok op.2.

(** ** Concrete trees

    The trees of [tests/unittest_utils.py], written out object by object.
    The identity of an object is its position in the list. *)

Fixpoint assoc (fs : list (string * field_value)) (f : string) : field_value :=
  match fs with
  | [] => FNone
  | (g, v) :: rest => if String.eqb g f then v else assoc rest f
  end.

Definition mk (c : class) (p : option node) (fs : list (string * field_value))
  : object :=
  {| cls := c; parent := p; getattr := assoc fs; name := None;
     value := PyNone |}.

Definition mk_name (c : class) (p : option node) (nm : string) : object :=
  {| cls := c; parent := p; getattr := assoc []; name := Some nm;
     value := PyNone |}.

Definition mk_const (p : option node) (v : pyconst) : object :=
  {| cls := Const; parent := p; getattr := assoc []; name := None;
     value := v |}.

Definition EmptyNode : class := Other "EmptyNode" [].
Definition Module_ : class := Other "Module" ["body"].
Definition FunctionDef : class := Other "FunctionDef" ["decorators"; "args"; "body"].
Definition Assign : class := Other "Assign" ["targets"; "value"].
Definition Expr : class := Other "Expr" ["value"].
Definition Call : class := Other "Call" ["func"; "args"; "keywords"].
Definition Compare : class := Other "Compare" ["left"; "ops"].
Definition BinOp : class := Other "BinOp" ["left"; "right"].

(** A heap holding the given objects.  Of the methods defined outside of
    [node_classes.py] only [nodes_of_class] is given a meaning, for nodes
    without children; the others raise. *)
Definition heap_of (objs : list object) : heap :=
  {| PY3 := true;
     obj := fun n => default (mk EmptyNode None []) (objs !! n);
     nodes_of_class := fun n c =>
       match objs !! n with
       | Some o => if bool_decide (cls o = c) then [n] else []
       | None => []
       end;
     infer := fun _ => ([], Raised InferenceError);
     frame := fun _ => Raise AttributeError;
     statement := fun _ => Raise AttributeError;
     fromlineno := fun _ => None;
     assign_type := fun _ => None;
     has_base := fun _ _ => false;
     optional_assign := fun _ => false;
     parent_of := fun _ _ => false;
     mixin_get_filtered_stmts := fun _ _ _ stmts _ => Ok (stmts, false) |}.

(** [test_if]:
<<
    if 1:
        a = 1
        a = 2
    elif 2:
        a = 12
        a = 13
    else:
        a = 3
        a = 4
>> *)
Definition tree_if : heap := heap_of
  [ (* 0 *) mk Module_ None [("body", FSeq [1])];
    (* 1 *) mk If (Some 0) [("test", FNode 2); ("body", FSeq [3; 6]);
                            ("orelse", FSeq [9])];
    (* 2 *) mk_const (Some 1) (PyInt 1);
    (* 3 *) mk Assign (Some 1) [("targets", FSeq [4]); ("value", FNode 5)];
    (* 4 *) mk_name AssignName (Some 3) "a";
    (* 5 *) mk_const (Some 3) (PyInt 1);
    (* 6 *) mk Assign (Some 1) [("targets", FSeq [7]); ("value", FNode 8)];
    (* 7 *) mk_name AssignName (Some 6) "a";
    (* 8 *) mk_const (Some 6) (PyInt 2);
    (* 9 *) mk If (Some 1) [("test", FNode 10); ("body", FSeq [11; 14]);
                            ("orelse", FSeq [17; 20])];
    (* 10 *) mk_const (Some 9) (PyInt 2);
    (* 11 *) mk Assign (Some 9) [("targets", FSeq [12]); ("value", FNode 13)];
    (* 12 *) mk_name AssignName (Some 11) "a";
    (* 13 *) mk_const (Some 11) (PyInt 12);
    (* 14 *) mk Assign (Some 9) [("targets", FSeq [15]); ("value", FNode 16)];
    (* 15 *) mk_name AssignName (Some 14) "a";
    (* 16 *) mk_const (Some 14) (PyInt 13);
    (* 17 *) mk Assign (Some 9) [("targets", FSeq [18]); ("value", FNode 19)];
    (* 18 *) mk_name AssignName (Some 17) "a";
    (* 19 *) mk_const (Some 17) (PyInt 3);
    (* 20 *) mk Assign (Some 9) [("targets", FSeq [21]); ("value", FNode 22)];
    (* 21 *) mk_name AssignName (Some 20) "a";
    (* 22 *) mk_const (Some 20) (PyInt 4) ].

(** [test_try_except]:
<<
    try:
        def exclusive_func2(): ...
    except TypeError:
        def exclusive_func2(): ...
    except:
        def exclusive_func2(): ...
    else:
        def exclusive_func2(): ...
>> *)
Definition tree_try : heap := heap_of
  [ (* 0 *) mk Module_ None [("body", FSeq [1])];
    (* 1 *) mk TryExcept (Some 0) [("body", FSeq [2]); ("handlers", FSeq [3; 6]);
                                   ("orelse", FSeq [8])];
    (* 2 *) mk FunctionDef (Some 1) [];
    (* 3 *) mk ExceptHandler (Some 1) [("type", FNode 4); ("body", FSeq [5])];
    (* 4 *) mk_name Name (Some 3) "TypeError";
    (* 5 *) mk FunctionDef (Some 3) [];
    (* 6 *) mk ExceptHandler (Some 1) [("body", FSeq [7])];
    (* 7 *) mk FunctionDef (Some 6) [];
    (* 8 *) mk FunctionDef (Some 1) [] ].

(** [test_not_exclusive]:
<<
    x = 10
    for x in range(5):
        print (x)

    if x > 0:
        print ('#' * x)
>> *)
Definition tree_seq : heap := heap_of
  [ (* 0 *) mk Module_ None [("body", FSeq [1; 4; 13])];
    (* 1 *) mk Assign (Some 0) [("targets", FSeq [2]); ("value", FNode 3)];
    (* 2 *) mk_name AssignName (Some 1) "x";
    (* 3 *) mk_const (Some 1) (PyInt 10);
    (* 4 *) mk For (Some 0) [("target", FNode 5); ("iter", FNode 6);
                             ("body", FSeq [9]); ("orelse", FSeq [])];
    (* 5 *) mk_name AssignName (Some 4) "x";
    (* 6 *) mk Call (Some 4) [("func", FNode 7); ("args", FSeq [8])];
    (* 7 *) mk_name Name (Some 6) "range";
    (* 8 *) mk_const (Some 6) (PyInt 5);
    (* 9 *) mk Expr (Some 4) [("value", FNode 10)];
    (* 10 *) mk Call (Some 9) [("func", FNode 11); ("args", FSeq [12])];
    (* 11 *) mk_name Name (Some 10) "print";
    (* 12 *) mk_name Name (Some 10) "x";
    (* 13 *) mk If (Some 0) [("test", FNode 14); ("body", FSeq [17]);
                             ("orelse", FSeq [])];
    (* 14 *) mk Compare (Some 13) [("left", FNode 15)];
    (* 15 *) mk_name Name (Some 14) "x";
    (* 16 *) mk_const (Some 14) (PyInt 0);
    (* 17 *) mk Expr (Some 13) [("value", FNode 18)];
    (* 18 *) mk Call (Some 17) [("func", FNode 19); ("args", FSeq [20])];
    (* 19 *) mk_name Name (Some 18) "print";
    (* 20 *) mk BinOp (Some 18) [("left", FNode 21); ("right", FNode 22)];
    (* 21 *) mk_const (Some 20) (PyStr "#");
    (* 22 *) mk_name Name (Some 20) "x" ].

(** Modelled from the spec: the methods of the tree model that
    [_filter_stmts] calls and that are defined in [bases] and [mixins], not
    in this file, for the trees below.  [statement] is the node itself if it
    is statement-capable, else its nearest statement-capable ancestor;
    [frame] is the same with the scope-capable nodes (module, function,
    class); [assign_type] is the node governing the binding; [parent_of]
    says whether a node is a proper ancestor of another. *)
Definition is_frame_class (c : class) : bool :=
  match c with
  | Other nm _ => bool_decide (nm ∈ ["Module"; "FunctionDef"; "ClassDef"])
  | _ => false
  end.

Definition is_statement_class (c : class) : bool :=
  match c with
  | If | TryExcept | ExceptHandler | For => true
  | Other nm _ =>
      bool_decide (nm ∈ ["Assign"; "AugAssign"; "Delete"; "Expr"; "Pass";
                         "Return"; "While"; "With"; "TryFinally"; "Import";
                         "ImportFrom"; "FunctionDef"; "ClassDef"])
  | _ => false
  end.

Fixpoint enclosing (P : class -> bool) (objs : list object) (fuel : nat)
    (n : node) : res node :=
  match fuel with
  | O => OutOfFuel
  | S fuel' =>
      match objs !! n with
      | None => Raise AttributeError
      | Some o =>
          if P (cls o) then Ok n
          else match parent o with
               | None => Raise AttributeError
               | Some p => enclosing P objs fuel' p
               end
      end
  end.

Fixpoint governing (objs : list object) (fuel : nat) (n : node)
  : option node :=
  match fuel with
  | O => None
  | S fuel' =>
      match objs !! n with
      | None => None
      | Some o =>
          match cls o with
          | AssignName | DelName | List | Tuple =>
              p ← parent o; governing objs fuel' p
          | For | ExceptHandler | Comprehension => Some n
          | Other nm _ =>
              if bool_decide (nm ∈ ["Assign"; "AugAssign"; "Delete"; "With";
                                    "Arguments"; "FunctionDef"; "ClassDef";
                                    "Import"; "ImportFrom"])
              then Some n else None
          | _ => None
          end
      end
  end.

Fixpoint is_above (objs : list object) (fuel : nat) (a : node)
    (o : option node) : bool :=
  match o, fuel with
  | Some p, S fuel' =>
      bool_decide (a = p)
      || is_above objs fuel' a (objs !! p ≫= parent)
  | _, _ => false
  end.

(** A heap for lookups: the objects with the start line of each. *)
Definition lookup_heap (objs : list object) (lines : list (option Z)) : heap :=
  {| PY3 := true;
     obj := obj (heap_of objs);
     nodes_of_class := nodes_of_class (heap_of objs);
     infer := fun _ => ([], Raised InferenceError);
     frame := enclosing is_frame_class objs (length objs);
     statement := enclosing is_statement_class objs (length objs);
     fromlineno := fun n => lines !! n ≫= id;
     assign_type := governing objs (length objs);
     has_base := fun _ _ => false;
     optional_assign := fun _ => false;
     parent_of := fun a b =>
       is_above objs (length objs) a (objs !! b ≫= parent);
     mixin_get_filtered_stmts := fun _ _ _ stmts _ => Ok (stmts, false) |}.

Definition ClassDef : class := Other "ClassDef" ["decorators"; "bases"; "body"].
Definition Delete : class := Other "Delete" ["targets"].
Definition Return : class := Other "Return" ["value"].
Definition Pass : class := Other "Pass" [].

(** A module with a deletion and a function:
<<
    x = 1
    del x
    x = 2
    print(x)
    x = 3
    def f():
        return x
>> *)
Definition tree_del : heap := lookup_heap
  [ (* 0 *) mk Module_ None [("body", FSeq [1; 4; 6; 9; 11; 14])];
    (* 1 *) mk Assign (Some 0) [("targets", FSeq [2]); ("value", FNode 3)];
    (* 2 *) mk_name AssignName (Some 1) "x";
    (* 3 *) mk_const (Some 1) (PyInt 1);
    (* 4 *) mk Delete (Some 0) [("targets", FSeq [5])];
    (* 5 *) mk_name DelName (Some 4) "x";
    (* 6 *) mk Assign (Some 0) [("targets", FSeq [7]); ("value", FNode 8)];
    (* 7 *) mk_name AssignName (Some 6) "x";
    (* 8 *) mk_const (Some 6) (PyInt 2);
    (* 9 *) mk Expr (Some 0) [("value", FNode 10)];
    (* 10 *) mk_name Name (Some 9) "x";
    (* 11 *) mk Assign (Some 0) [("targets", FSeq [12]); ("value", FNode 13)];
    (* 12 *) mk_name AssignName (Some 11) "x";
    (* 13 *) mk_const (Some 11) (PyInt 3);
    (* 14 *) mk FunctionDef (Some 0) [("body", FSeq [15])];
    (* 15 *) mk Return (Some 14) [("value", FNode 16)];
    (* 16 *) mk_name Name (Some 15) "x" ]
  [ None; Some 1; Some 1; Some 1; Some 2; Some 2; Some 3; Some 3; Some 3;
    Some 4; Some 4; Some 5; Some 5; Some 5; Some 6; Some 7; Some 7 ]%Z.

(** A class whose base is bound after it:
<<
    class A(B): pass
    B = 1
>> *)
Definition tree_class : heap := lookup_heap
  [ (* 0 *) mk Module_ None [("body", FSeq [1; 4])];
    (* 1 *) mk ClassDef (Some 0) [("bases", FSeq [2]); ("body", FSeq [3])];
    (* 2 *) mk_name Name (Some 1) "B";
    (* 3 *) mk Pass (Some 1) [];
    (* 4 *) mk Assign (Some 0) [("targets", FSeq [5]); ("value", FNode 6)];
    (* 5 *) mk_name AssignName (Some 4) "B";
    (* 6 *) mk_const (Some 4) (PyInt 1) ]
  [ None; Some 1; Some 1; Some 1; Some 2; Some 2; Some 2 ]%Z.

(** A heap with the results of the inference engine given for each node. *)
Definition infer_heap (objs : list object) (inf : node -> gen inferred)
  : heap :=
  {| PY3 := true;
     obj := obj (heap_of objs);
     nodes_of_class := nodes_of_class (heap_of objs);
     infer := inf;
     frame := frame (heap_of objs);
     statement := statement (heap_of objs);
     fromlineno := fromlineno (heap_of objs);
     assign_type := assign_type (heap_of objs);
     has_base := has_base (heap_of objs);
     optional_assign := optional_assign (heap_of objs);
     parent_of := parent_of (heap_of objs);
     mixin_get_filtered_stmts := mixin_get_filtered_stmts (heap_of objs) |}.

(** [test_unpack_infer_uninferable_nodes]:
<<
    x = [A] * 1
    f = [x, [A] * 2]
    f
>>
    Object 0 is the list that [f] is inferred to; [A] is not defined, so
    that its inference gives the sentinel; a constant is inferred to
    itself. *)
Definition tree_unpack : heap := infer_heap
  [ (* 0 *) mk List None [("elts", FSeq [1; 2])];
    (* 1 *) mk_name Name (Some 0) "x";
    (* 2 *) mk BinOp (Some 0) [("left", FNode 5); ("right", FNode 6)];
    (* 3 *) mk List None [("elts", FSeq [4])];
    (* 4 *) mk_name Name (Some 3) "A";
    (* 5 *) mk List None [("elts", FSeq [4; 4])];
    (* 6 *) mk_const (Some 2) (PyInt 2) ]
  (fun n =>
     match n with
     | 0 => ([Obj 0], Done)
     | 1 => ([Obj 3], Done)
     | 2 => ([Obj 5], Done)
     | 3 => ([Obj 3], Done)
     | 4 => ([YES], Done)
     | 5 => ([Obj 5], Done)
     | 6 => ([Obj 6], Done)
     | _ => ([], Raised InferenceError)
     end).

(** The dictionaries [{1: "a", "k": 2}] (object 0) and [{"k": 2, u: 3}]
    (object 7), where the inference of the key [u] fails. *)
Definition tree_dict : heap := infer_heap
  [ (* 0 *) mk Dict None [("items", FPairs [(1, 2); (3, 4)])];
    (* 1 *) mk_const (Some 0) (PyInt 1);
    (* 2 *) mk_const (Some 0) (PyStr "a");
    (* 3 *) mk_const (Some 0) (PyStr "k");
    (* 4 *) mk_const (Some 0) (PyInt 2);
    (* 5 *) mk_name Name (Some 0) "u";
    (* 6 *) mk_const (Some 0) (PyInt 3);
    (* 7 *) mk Dict None [("items", FPairs [(3, 4); (5, 6)])] ]
  (fun n =>
     match n with
     | 1 => ([Obj 1], Done)
     | 3 => ([YES; Obj 3], Done)
     | 5 => ([], Raised InferenceError)
     | _ => ([Obj n], Done)
     end).

(** The heap with other start lines. *)
Definition with_lines (h : heap) (lines : node -> option Z) : heap :=
  {| PY3 := PY3 h;
     obj := obj h;
     nodes_of_class := nodes_of_class h;
     infer := infer h;
     frame := frame h;
     statement := statement h;
     fromlineno := lines;
     assign_type := assign_type h;
     has_base := has_base h;
     optional_assign := optional_assign h;
     parent_of := parent_of h;
     mixin_get_filtered_stmts := mixin_get_filtered_stmts h |}.

(** What the [_get_filtered_stmts] of the mixins may return: nodes that
    were accumulated already, or the candidate at hand. *)
Definition mixin_keeps (h : heap) : Prop :=
  forall at_ self node_ stmts mystmt r dn,
    mixin_get_filtered_stmts h at_ self node_ stmts mystmt = Ok (r, dn) ->
    forall x, x ∈ r -> x ∈ stmts \/ x = node_.

(** The statement of [x] does not start after the line [horizon]. *)
Definition within_horizon (h : heap) (horizon : Z) (x : node) : Prop :=
  forall s l, statement h x = Ok s -> fromlineno h s = Some l ->
              (l <= horizon)%Z.

(** ** Notions used to state the properties *)

(** The parent chain that starts at [node_] ends within [fuel] steps. *)
Fixpoint rooted (h : heap) (fuel : nat) (node_ : option node) : bool :=
  match node_ with
  | None => true
  | Some n =>
      match fuel with
      | O => false
      | S fuel' => rooted h fuel' (parent (obj h n))
      end
  end.

(** [branch_root h x N c]: [N] is a proper ancestor of [x], and [c] is the
    child of [N] on the way down to [x] ([x] itself or an ancestor of it). *)
Inductive branch_root (h : heap) : node -> node -> node -> Prop :=
  | branch_here x N :
      parent (obj h x) = Some N -> branch_root h x N x
  | branch_up x p N c :
      parent (obj h x) = Some p -> branch_root h p N c -> branch_root h x N c.

(** [N] is the first node above [b] that is also above [a]; [ca] and [cb]
    are the children of [N] towards [a] and [b].  Two chains that pass
    through the same child of [N] have met below [N] already, unless that
    child is [a] or [b] itself. *)
Definition nearest_common_parent (h : heap) (a b N ca cb : node) : Prop :=
  branch_root h a N ca /\ branch_root h b N cb /\
  (ca <> cb \/ ca = a \/ cb = b).

(** [y] is [x] or an ancestor of [x]. *)
Inductive climbs (h : heap) : node -> node -> Prop :=
  | climbs_refl x : climbs h x x
  | climbs_step x p y :
      parent (obj h x) = Some p -> climbs h p y -> climbs h x y.


(** The proper ancestors of a node, nearest first, as a list. *)
Inductive path (h : heap) : option node -> list node -> Prop :=
  | path_root : path h None []
  | path_cons n l : path h (parent (obj h n)) l -> path h (Some n) (n :: l).

(** The two dicts after [index_parents] went through the chain [l]. *)
Fixpoint fill (previous : node) (l : list node)
    (stmt1_parents children : gmap nat nat) : gmap nat nat * gmap nat nat :=
  match l with
  | [] => (stmt1_parents, children)
  | n :: l' => fill n l' (<[n := 1]> stmt1_parents) (<[n := previous]> children)
  end.

(** [common_parent] in terms of the two children alone. *)
Definition at_common (h : heap) (n c2 c1 : node)
    (exceptions : option (list string)) : res bool :=
  common_parent h n c2 {[ n := c1 ]} exceptions.

(** The handler has the shape the builder gives it: it is an
    [ExceptHandler], its [type] is [None] or one node, and the [Name] nodes
    below that node carry a name. *)
Definition handler_ok (h : heap) (c : node) : bool :=
  isinstance h c ExceptHandler &&
  match getattr (obj h c) "type" with
  | FNone => true
  | FNode ty =>
      forallb (fun n => bool_decide (is_Some (name (obj h n))))
        (nodes_of_class h ty Name)
  | _ => false
  end.

(** The handler catches one of [exceptions]: no names were asked for, or
    the handler has no type clause, or a name of its type clause is among
    the names asked for. *)
Definition catches (h : heap) (handler : node)
    (exceptions : option (list string)) : Prop :=
  match exceptions with
  | None => True
  | Some names =>
      getattr (obj h handler) "type" = FNone \/
      exists ty n nm,
        getattr (obj h handler) "type" = FNode ty /\
        n ∈ nodes_of_class h ty Name /\
        name (obj h n) = Some nm /\ nm ∈ names
  end.

(** The module of [test_not_exclusive] once more, as a heap for lookups. *)
Definition tree_loop : heap := lookup_heap
  [ (* 0 *) mk Module_ None [("body", FSeq [1; 4; 13])];
    (* 1 *) mk Assign (Some 0) [("targets", FSeq [2]); ("value", FNode 3)];
    (* 2 *) mk_name AssignName (Some 1) "x";
    (* 3 *) mk_const (Some 1) (PyInt 10);
    (* 4 *) mk For (Some 0) [("target", FNode 5); ("iter", FNode 6);
                             ("body", FSeq [9]); ("orelse", FSeq [])];
    (* 5 *) mk_name AssignName (Some 4) "x";
    (* 6 *) mk Call (Some 4) [("func", FNode 7); ("args", FSeq [8])];
    (* 7 *) mk_name Name (Some 6) "range";
    (* 8 *) mk_const (Some 6) (PyInt 5);
    (* 9 *) mk Expr (Some 4) [("value", FNode 10)];
    (* 10 *) mk Call (Some 9) [("func", FNode 11); ("args", FSeq [12])];
    (* 11 *) mk_name Name (Some 10) "print";
    (* 12 *) mk_name Name (Some 10) "x";
    (* 13 *) mk If (Some 0) [("test", FNode 14); ("body", FSeq [17]);
                             ("orelse", FSeq [])];
    (* 14 *) mk Compare (Some 13) [("left", FNode 15)];
    (* 15 *) mk_name Name (Some 14) "x";
    (* 16 *) mk_const (Some 14) (PyInt 0);
    (* 17 *) mk Expr (Some 13) [("value", FNode 18)];
    (* 18 *) mk Call (Some 17) [("func", FNode 19); ("args", FSeq [20])];
    (* 19 *) mk_name Name (Some 18) "print";
    (* 20 *) mk BinOp (Some 18) [("left", FNode 21); ("right", FNode 22)];
    (* 21 *) mk_const (Some 20) (PyStr "#");
    (* 22 *) mk_name Name (Some 20) "x" ]
  [ None; Some 2; Some 2; Some 2; Some 3; Some 3; Some 3; Some 3; Some 3;
    Some 4; Some 4; Some 4; Some 4; Some 6; Some 6; Some 6; Some 6; Some 7;
    Some 7; Some 7; Some 7; Some 7; Some 7 ]%Z.



(** The [_get_filtered_stmts] of the mixins leaves the list as it is when
    it does not stop the scan. *)
Definition mixin_stable (h : heap) : Prop :=
  forall at_ self node_ stmts mystmt r,
    mixin_get_filtered_stmts h at_ self node_ stmts mystmt = Ok (r, false) ->
    r = stmts.

(** The [_get_filtered_stmts] of the mixins returns part of the list it is
    given, in the same order, or stops the scan with the candidate alone. *)
Definition mixin_orderly (h : heap) : Prop :=
  forall at_ self node_ stmts mystmt r dn,
    mixin_get_filtered_stmts h at_ self node_ stmts mystmt = Ok (r, dn) ->
    sublist r stmts \/ (r = [node_] /\ dn = true).

(** Each entry of [_stmt_parents] is the parent of the statement of the
    entry of [_stmts] at the same position. *)
Definition aligned (h : heap) (_stmts : list node)
    (_stmt_parents : list (option node)) : Prop :=
  Forall2 (fun x p => exists s, statement h x = Ok s /\ p = parent (obj h s))
    _stmts _stmt_parents.

(** A value at which the unpacking ends: the sentinel, or a node that is
    no [List] and no [Tuple] and whose first inferred value is itself. *)
Definition terminal (h : heap) (v : inferred) : Prop :=
  v = YES \/
  exists n, v = Obj n /\
    isinstance h n List = false /\ isinstance h n Tuple = false /\
    exists rest e, infer h n = (Obj n :: rest, e).

(** The argument is a plain one (no [Tuple]) with the name [argname]. *)
Definition plain_named (h : heap) (argname : string) (a : node) : Prop :=
  isinstance h a Tuple = false /\ name (obj h a) = Some argname.

(** The argument can be looked at by [_find_arg]: it is a [Tuple], or it
    has a name. *)
Definition nameable (h : heap) (a : node) : Prop :=
  isinstance h a Tuple = true \/ is_Some (name (obj h a)).

(** A function with a vararg, a keyword-only argument and defaults:
<<
    def f(a, b=1, c=2, *rest, k=3, m): ...
>> *)
Definition tree_args : heap := heap_of
  [ (* 0 *) mk_name AssignName None "a";
    (* 1 *) mk_name AssignName None "b";
    (* 2 *) mk_name AssignName None "c";
    (* 3 *) mk_const None (PyInt 1);
    (* 4 *) mk_const None (PyInt 2);
    (* 5 *) mk_name AssignName None "k";
    (* 6 *) mk_name AssignName None "m";
    (* 7 *) mk_const None (PyInt 3);
    (* 8 *) mk List None [("elts", FSeq [3; 4; 7])] ].

Definition args_f : arguments :=
  {| args := Some [0; 1; 2];
     defaults := [3; 4];
     kwonlyargs := [5; 6];
     kw_defaults := [Some 7; None];
     vararg := Some "rest";
     kwarg := None |}.

(** A tree put together by hand: the second [pass] has the [If] as its
    parent, but is in none of its fields. *)
Definition tree_detached : heap := heap_of
  [ (* 0 *) mk Module_ None [("body", FSeq [1])];
    (* 1 *) mk If (Some 0) [("test", FNode 2); ("body", FSeq [3]);
                            ("orelse", FSeq [])];
    (* 2 *) mk_const (Some 1) (PyInt 1);
    (* 3 *) mk Pass (Some 1) [];
    (* 4 *) mk Pass (Some 1) [] ].

(** The comparison [a < b < c], with [a], [b] and [c] the objects 0, 1 and
    2. *)
Definition compare_chain : compare :=
  {| Compare_left := 0; Compare_ops := [("<", 1); ("<", 2)] |}.

(** A name that is inferred to a node and to the sentinel, where the
    inference of that node gives nothing: object 0 is inferred to object 1
    and to the sentinel, and object 1 to no value. *)
Definition tree_silent : heap := infer_heap
  [ (* 0 *) mk_name Name None "x";
    (* 1 *) mk_name Name None "y" ]
  (fun n =>
     match n with
     | 0 => ([Obj 1; YES], Done)
     | _ => ([], Done)
     end).

(** The dictionary [{u: 3, "k": 2}], where the inference of the key [u]
    fails. *)
Definition tree_dict_u : heap := infer_heap
  [ (* 0 *) mk Dict None [("items", FPairs [(1, 2); (3, 4)])];
    (* 1 *) mk_name Name (Some 0) "u";
    (* 2 *) mk_const (Some 0) (PyInt 3);
    (* 3 *) mk_const (Some 0) (PyStr "k");
    (* 4 *) mk_const (Some 0) (PyInt 2) ]
  (fun n =>
     match n with
     | 1 => ([], Raised InferenceError)
     | _ => ([Obj n], Done)
     end).

(** The candidate gets past the line test of its round. *)
Definition passes (h : heap) (mylineno : Z) (c : node) : Prop :=
  exists s, statement h c = Ok s /\
    ((0 < mylineno)%Z ->
     forall lc, fromlineno h s = Some lc -> (lc <= mylineno)%Z).

(** Inferring [key] yields a constant equal to [lookup_key]. *)
Definition yields_const (h : heap) (key : node) (lookup_key : pyconst) : Prop :=
  exists k, Obj k ∈ (infer h key).1 /\ isinstance h k Const = true /\
            py_eq (value (obj h k)) lookup_key = true.

(** The scan of [Dict.getitem] goes past this item: the inference of its
    key ends normally and yields no constant equal to [lookup_key]. *)
Definition passed_over (h : heap) (lookup_key : pyconst)
    (kv : node * node) : Prop :=
  exhausted (infer h kv.1).2 = Done /\ ~ yields_const h kv.1 lookup_key.


(** Asking for more names, or for none, keeps a handler that catches. *)
Definition wider (ex ex' : option (list string)) : Prop :=
  match ex, ex' with
  | _, None => True
  | Some names, Some names' => names ⊆ names'
  | None, Some _ => False
  end.

(** * Properties of [are_exclusive] *)

Section AreExclusive.
Variable h : heap.

Lemma rooted_path fuel o :
  rooted h fuel o = true -> exists l, path h o l /\ length l <= fuel.
Proof.
  revert o. induction fuel as [|fuel IH]; intros [n|] H; simpl in H;
    try discriminate.
  - exists []. split; [constructor | simpl; lia].
  - destruct (IH _ H) as (l & Hl & Hlen).
    exists (n :: l). split; [by constructor | simpl; lia].
  - exists []. split; [constructor | simpl; lia].
Qed.

Lemma path_fun o l1 l2 : path h o l1 -> path h o l2 -> l1 = l2.
Proof.
  intros H1. revert l2. induction H1; intros l2 H2; inversion H2; subst.
  - done.
  - f_equal. by apply IHpath.
Qed.

Lemma path_app_inv o l1 x l2 :
  path h o (l1 ++ x :: l2) -> path h (parent (obj h x)) l2.
Proof.
  revert o. induction l1 as [|y l1 IH]; intros o H; simpl in H;
    inversion H; subst; eauto.
Qed.

Lemma path_NoDup o l : path h o l -> NoDup l.
Proof.
  induction 1 as [|n l Hp IH]; constructor; [|done].
  intros Hin. apply list_elem_of_split in Hin as (l1 & l2 & ->).
  pose proof (path_app_inv _ _ _ _ Hp) as Hp2.
  pose proof (path_fun _ _ _ Hp Hp2) as Heq.
  apply (f_equal length) in Heq. rewrite length_app in Heq. simpl in Heq. lia.
Qed.

Lemma index_parents_fill fuel o previous sp ch l :
  path h o l -> length l <= fuel ->
  index_parents h fuel o previous sp ch = Ok (fill previous l sp ch).
Proof.
  intros Hp. revert fuel previous sp ch.
  induction Hp as [|n l Hp IH]; intros fuel previous sp ch Hlen.
  - by destruct fuel.
  - destruct fuel as [|fuel]; simpl in Hlen; [lia|].
    simpl. apply IH. lia.
Qed.

Lemma fill_notin previous l sp ch n :
  n ∉ l ->
  (fill previous l sp ch).1 !! n = sp !! n /\
  (fill previous l sp ch).2 !! n = ch !! n.
Proof.
  revert previous sp ch. induction l as [|x l IH]; intros previous sp ch Hn.
  - done.
  - apply not_elem_of_cons in Hn as [Hne Hn]. simpl.
    destruct (IH x (<[x:=1]> sp) (<[x:=previous]> ch) Hn) as [-> ->].
    by rewrite !lookup_insert_ne.
Qed.

Lemma last_cons {A} (x d : A) (l : list A) :
  List.last (x :: l) d = List.last l x.
Proof.
  revert x d. induction l as [|y l IH]; intros x d; [done|].
  change (List.last (x :: y :: l) d) with (List.last (y :: l) d).
  by rewrite !IH.
Qed.

Lemma fill_in previous l1 n l2 sp ch :
  n ∉ l2 ->
  is_Some ((fill previous (l1 ++ n :: l2) sp ch).1 !! n) /\
  (fill previous (l1 ++ n :: l2) sp ch).2 !! n
    = Some (List.last l1 previous).
Proof.
  revert previous sp ch. induction l1 as [|x l1 IH]; intros previous sp ch Hn.
  - simpl. destruct (fill_notin n l2 (<[n:=1]> sp) (<[n:=previous]> ch) n Hn)
      as [E1 E2].
    rewrite E1, E2, !lookup_insert_eq. eauto.
  - rewrite last_cons. simpl.
    destruct (IH x (<[x:=1]> sp) (<[x:=previous]> ch) Hn) as [H1 H2]. done.
Qed.

Lemma climb_none fuel o previous sp ch ex l :
  path h o l -> length l <= fuel ->
  (forall x, x ∈ l -> sp !! x = None) ->
  climb h fuel o previous sp ch ex = Ok false.
Proof.
  intros Hp. revert fuel previous.
  induction Hp as [|n l Hp IH]; intros fuel previous Hlen Hno.
  - by destruct fuel.
  - destruct fuel as [|fuel]; simpl in Hlen; [lia|]. simpl.
    rewrite bool_decide_eq_false_2.
    + apply IH; [lia|]. intros x Hx. apply Hno. by right.
    + rewrite (Hno n) by left. apply is_Some_None.
Qed.

Lemma climb_found fuel o previous sp ch ex l1 n l2 :
  path h o (l1 ++ n :: l2) -> length (l1 ++ n :: l2) <= fuel ->
  (forall x, x ∈ l1 -> sp !! x = None) -> is_Some (sp !! n) ->
  climb h fuel o previous sp ch ex
  = common_parent h n (List.last l1 previous) ch ex.
Proof.
  revert fuel o previous.
  induction l1 as [|y l1 IH]; intros fuel o previous Hp Hlen Hno Hn;
    inversion Hp; subst; destruct fuel as [|fuel]; simpl in Hlen; try lia.
  - simpl. by rewrite bool_decide_eq_true_2.
  - rewrite last_cons. simpl. rewrite bool_decide_eq_false_2.
    + apply IH; [done | lia | | done]. intros x Hx. apply Hno. by right.
    + rewrite (Hno y) by left. apply is_Some_None.
Qed.

Lemma common_parent_subscript n previous ch c1 ex :
  ch !! n = Some c1 ->
  common_parent h n previous ch ex = at_common h n previous c1 ex.
Proof.
  intros H. unfold at_common, common_parent, subscript.
  by rewrite H, lookup_singleton_eq.
Qed.

Lemma are_exclusive_disjoint fuel a b ex la lb :
  path h (parent (obj h a)) la -> path h (parent (obj h b)) lb ->
  length la <= fuel -> length lb <= fuel ->
  (forall x, x ∈ lb -> x ∉ la) ->
  are_exclusive h fuel a b ex = Ok false.
Proof.
  intros Ha Hb Hla Hlb Hdis. unfold are_exclusive.
  rewrite (index_parents_fill _ _ _ _ _ _ Ha Hla).
  destruct (fill a la ∅ ∅) as [sp ch] eqn:E. simpl.
  apply (climb_none _ _ _ _ _ _ _ Hb Hlb).
  intros x Hx. destruct (fill_notin a la ∅ ∅ x (Hdis x Hx)) as [H1 _].
  rewrite E in H1. simpl in H1. by rewrite H1.
Qed.

Lemma are_exclusive_meet fuel a b ex A' N T B' T' :
  path h (parent (obj h a)) (A' ++ N :: T) ->
  path h (parent (obj h b)) (B' ++ N :: T') ->
  length (A' ++ N :: T) <= fuel -> length (B' ++ N :: T') <= fuel ->
  (forall x, x ∈ B' -> x ∉ A' ++ N :: T) ->
  are_exclusive h fuel a b ex
  = at_common h N (List.last B' b) (List.last A' a) ex.
Proof.
  intros Ha Hb Hla Hlb Hdis. unfold are_exclusive.
  rewrite (index_parents_fill _ _ _ _ _ _ Ha Hla).
  destruct (fill a (A' ++ N :: T) ∅ ∅) as [sp ch] eqn:E. simpl.
  assert (N ∉ T) as HN.
  { apply path_NoDup in Ha. apply NoDup_app in Ha as (_ & _ & Ha).
    by apply NoDup_cons in Ha as [? _]. }
  destruct (fill_in a A' N T ∅ ∅ HN) as [H1 H2]. rewrite E in H1, H2.
  simpl in H1, H2.
  rewrite (climb_found _ _ _ _ _ _ _ _ _ Hb Hlb); [|
    | done].
  - by apply common_parent_subscript.
  - intros x Hx. destruct (fill_notin a (A' ++ N :: T) ∅ ∅ x (Hdis x Hx))
      as [H3 _].
    rewrite E in H3. simpl in H3. by rewrite H3.
Qed.

Lemma locate_child_in_raise n fs c e :
  locate_child_in h n fs c = Raise e -> e = AstroidError.
Proof.
  induction fs as [|f fs IH]; simpl; [congruence|].
  destruct (getattr (obj h n) f); try case_bool_decide; eauto; congruence.
Qed.

Lemma locate_child_in_fuel n fs c : locate_child_in h n fs c <> OutOfFuel.
Proof.
  induction fs as [|f fs IH]; simpl; [congruence|].
  destruct (getattr (obj h n) f); try case_bool_decide; eauto; congruence.
Qed.

Lemma locate_child_cases n c :
  (exists r, locate_child h n c = Ok r) \/ locate_child h n c = Raise AstroidError.
Proof.
  unfold locate_child.
  destruct (locate_child_in h n _ c) as [r|e|] eqn:E; eauto.
  - right. by rewrite (locate_child_in_raise _ _ _ _ E).
  - by apply locate_child_in_fuel in E.
Qed.

Lemma at_common_sym n c1 c2 ex :
  at_common h n c2 c1 ex = at_common h n c1 c2 ex.
Proof.
  unfold at_common, common_parent, subscript.
  rewrite !lookup_singleton_eq.
  destruct (locate_child_cases n c1) as [[[f1 o1] E1] | E1];
    destruct (locate_child_cases n c2) as [[[f2 o2] E2] | E2];
    destruct (isinstance h n If && bool_decide (ex = None));
    [| destruct (isinstance h n TryExcept); [|done]
     | | destruct (isinstance h n TryExcept); [|done]
     | | destruct (isinstance h n TryExcept); [|done]
     | | destruct (isinstance h n TryExcept); [|done] ];
    rewrite ?E1, ?E2; simpl; rewrite ?E1, ?E2; simpl; try done.
  { destruct (decide (o1 = o2)) as [->|Hne].
    - by rewrite !bool_decide_eq_false_2 by naive_solver.
    - by rewrite !bool_decide_eq_true_2 by naive_solver. }
  destruct (decide (o1 = o2)) as [->|Hne].
  - rewrite !bool_decide_eq_false_2 by naive_solver.
    rewrite (andb_comm (String.eqb f2 "handlers")).
    destruct (_ && _); [|done]. f_equal.
    destruct (decide (c1 = c2)) as [->|Hc]; [done|].
    by rewrite !bool_decide_eq_true_2 by naive_solver.
  - rewrite !bool_decide_eq_true_2 by naive_solver.
    unfold por, pand. simpl.
    repeat match goal with
           | |- context [String.eqb ?x ?y] => destruct (String.eqb_spec x y)
           end; simpl; try congruence;
    repeat match goal with
           | |- context [catch h ?c ex] =>
               destruct (catch h c ex) as [[[]|]| |]; simpl
           end; congruence.
Qed.

Lemma catch_loop_fuel names exs : catch_loop h names exs <> OutOfFuel.
Proof.
  induction names as [|n names IH]; simpl; [done|].
  destruct (name (obj h n)); [|done]. by case_bool_decide.
Qed.

Lemma catch_fuel c ex : catch h c ex <> OutOfFuel.
Proof.
  unfold catch. destruct (isinstance h c ExceptHandler); [|done].
  destruct (getattr (obj h c) "type"), ex; try done. apply catch_loop_fuel.
Qed.

Lemma at_common_fuel n c2 c1 ex : at_common h n c2 c1 ex <> OutOfFuel.
Proof.
  unfold at_common, common_parent, subscript.
  rewrite !lookup_singleton_eq.
  destruct (locate_child_cases n c1) as [[[f1 o1] E1] | E1];
    destruct (locate_child_cases n c2) as [[[f2 o2] E2] | E2];
    destruct (isinstance h n If && bool_decide (ex = None));
    [| destruct (isinstance h n TryExcept); [|done]
     | | destruct (isinstance h n TryExcept); [|done]
     | | destruct (isinstance h n TryExcept); [|done]
     | | destruct (isinstance h n TryExcept); [|done] ];
    rewrite ?E1, ?E2; simpl; rewrite ?E1, ?E2; simpl; try done.
  { by case_bool_decide. }
  case_bool_decide; [|by destruct (_ && _)].
  unfold por, pand. simpl.
  pose proof (catch_fuel c1 ex). pose proof (catch_fuel c2 ex).
  repeat match goal with
         | |- context [String.eqb ?x ?y] => destruct (String.eqb x y)
         end; simpl; try done;
  repeat match goal with
         | |- context [catch h ?c ex] =>
             destruct (catch h c ex) as [[[]|]| |]; simpl
         end; done.
Qed.

Lemma at_common_same n c r ex :
  locate_child h n c = Ok r -> at_common h n c c ex = Ok false.
Proof.
  intros E. unfold at_common, common_parent, subscript.
  rewrite lookup_singleton_eq. destruct r as [f o].
  destruct (isinstance h n If && bool_decide (ex = None)).
  { rewrite E. simpl. rewrite E. simpl.
    by rewrite bool_decide_eq_false_2 by naive_solver. }
  destruct (isinstance h n TryExcept); [|done].
  rewrite E. simpl. rewrite E. simpl.
  rewrite bool_decide_eq_false_2 by naive_solver.
  destruct (_ && _); [|done].
  by rewrite bool_decide_eq_false_2 by naive_solver.
Qed.

Lemma first_common (la lb : list nat) :
  (forall x, x ∈ lb -> x ∉ la) \/
  exists B' N T', lb = B' ++ N :: T' /\ N ∈ la /\ forall x, x ∈ B' -> x ∉ la.
Proof.
  induction lb as [|y lb IH].
  - left. intros x Hx. by apply elem_of_nil in Hx.
  - destruct (decide (y ∈ la)) as [Hy|Hy].
    + right. exists [], y, lb. split; [done|]. split; [done|].
      intros x Hx. by apply elem_of_nil in Hx.
    + destruct IH as [IH | (B' & N & T' & -> & HN & HB)].
      * left. intros x [->|Hx]%elem_of_cons; auto.
      * right. exists (y :: B'), N, T'. split; [done|]. split; [done|].
        intros x [->|Hx]%elem_of_cons; auto.
Qed.

Lemma path_not_self x l : path h (parent (obj h x)) l -> x ∉ l.
Proof.
  intros Hp Hin. apply list_elem_of_split in Hin as (l1 & l2 & ->).
  pose proof (path_app_inv _ _ _ _ Hp) as Hp2.
  pose proof (path_fun _ _ _ Hp Hp2) as Heq.
  apply (f_equal length) in Heq. rewrite length_app in Heq. simpl in Heq. lia.
Qed.

Lemma path_same_tail oa ob A' B' N T T' :
  path h oa (A' ++ N :: T) -> path h ob (B' ++ N :: T') -> T = T'.
Proof.
  intros Ha Hb. apply path_app_inv in Ha, Hb. by eapply path_fun.
Qed.

(** The two chains below their first common node do not meet. *)
Lemma meet_disjoint oa ob A' B' N T :
  path h oa (A' ++ N :: T) -> path h ob (B' ++ N :: T) ->
  (forall x, x ∈ B' -> x ∉ A' ++ N :: T) ->
  forall x, x ∈ A' -> x ∉ B' ++ N :: T.
Proof.
  intros Ha Hb Hdis x Hx [Hin|Hin]%elem_of_app.
  - apply (Hdis x Hin). apply elem_of_app. by left.
  - apply path_NoDup in Ha. apply NoDup_app in Ha as (_ & Ha & _).
    by apply (Ha x).
Qed.

Lemma are_exclusive_swap fuel a b ex :
  rooted h fuel (parent (obj h a)) = true ->
  rooted h fuel (parent (obj h b)) = true ->
  are_exclusive h fuel a b ex = are_exclusive h fuel b a ex /\
  are_exclusive h fuel a b ex <> OutOfFuel.
Proof.
  intros (la & Ha & Hla)%rooted_path (lb & Hb & Hlb)%rooted_path.
  destruct (first_common la lb) as [Hdis | (B' & N & T' & -> & HN & Hdis)].
  - rewrite (are_exclusive_disjoint fuel a b ex la lb) by done.
    rewrite (are_exclusive_disjoint fuel b a ex lb la); [done|done..|].
    intros x Hx Hx'. by apply (Hdis x).
  - apply list_elem_of_split in HN as (A' & T & ->).
    pose proof (path_same_tail _ _ _ _ _ _ _ Ha Hb) as <-.
    rewrite (are_exclusive_meet fuel a b ex A' N T B' T) by done.
    rewrite (are_exclusive_meet fuel b a ex B' N T A' T); try done.
    + split; [apply at_common_sym | apply at_common_fuel].
    + by eapply meet_disjoint.
Qed.

(** C3: for every pair of nodes and every value of the exception names,
    [are_exclusive a b] equals [are_exclusive b a]; with enough fuel for the
    two parent chains the call returns (a boolean, or the exception of a
    malformed tree) in both orders. *)
Theorem are_exclusive_sym fuel a b ex :
  rooted h fuel (parent (obj h a)) = true ->
  rooted h fuel (parent (obj h b)) = true ->
  are_exclusive h fuel a b ex = are_exclusive h fuel b a ex /\
  are_exclusive h fuel a b ex <> OutOfFuel.
Proof. apply are_exclusive_swap. Qed.

Lemma branch_root_path x N c l :
  branch_root h x N c -> path h (parent (obj h x)) l ->
  exists A' T, l = A' ++ N :: T /\ List.last A' x = c.
Proof.
  intros Hb. revert l. induction Hb as [x N Hx | x p N c Hx Hb IH]; intros l Hp;
    rewrite Hx in Hp; inversion Hp as [|? l' Hp']; subst.
  - by exists [], l'.
  - destruct (IH _ Hp') as (A' & T & -> & Hlast).
    exists (p :: A'), T. split; [done|]. by rewrite last_cons.
Qed.

Lemma last_elem_of {A} (l : list A) (d : A) : List.last l d ∈ d :: l.
Proof.
  revert d. induction l as [|y l IH]; intros d; [left|].
  rewrite last_cons. right. apply IH.
Qed.

Lemma last_app_cons {A} (l1 l2 : list A) (x d : A) :
  List.last (l1 ++ x :: l2) d = List.last l2 x.
Proof.
  revert d. induction l1 as [|y l1 IH]; intros d.
  - apply last_cons.
  - change ((y :: l1) ++ x :: l2) with (y :: (l1 ++ x :: l2)).
    by rewrite last_cons.
Qed.

(** With the nearest common parent [N] of [a] and [b], [are_exclusive]
    comes down to the test at [N] on the two children. *)
Lemma are_exclusive_nearest fuel a b N ca cb ex :
  rooted h fuel (parent (obj h a)) = true ->
  rooted h fuel (parent (obj h b)) = true ->
  nearest_common_parent h a b N ca cb ->
  are_exclusive h fuel a b ex = at_common h N cb ca ex.
Proof.
  intros (la & Ha & Hla)%rooted_path (lb & Hb & Hlb)%rooted_path
    (Hba & Hbb & Hnear).
  destruct (branch_root_path _ _ _ _ Hba Ha) as (A' & T & -> & HA).
  destruct (branch_root_path _ _ _ _ Hbb Hb) as (B' & T' & -> & HB).
  pose proof (path_same_tail _ _ _ _ _ _ _ Ha Hb) as <-.
  rewrite (are_exclusive_meet fuel a b ex A' N T B' T); try done.
  { by rewrite HA, HB. }
  intros x HxB HxA.
  assert (x ∈ A') as HxA'.
  { apply elem_of_app in HxA as [?|HxA]; [done|].
    apply path_NoDup in Hb. apply NoDup_app in Hb as (_ & Hb & _).
    by destruct (Hb x). }
  apply list_elem_of_split in HxA' as (A1 & A2 & ->).
  apply list_elem_of_split in HxB as (B1 & B2 & ->).
  rewrite <- !app_assoc in Ha, Hb. simpl in Ha, Hb.
  pose proof (path_same_tail _ _ _ _ _ _ _ Ha Hb) as Htail.
  apply app_inv_tail in Htail as ->.
  rewrite last_app_cons in HA, HB.
  pose proof (last_elem_of B2 x) as Hin. rewrite HB in Hin.
  assert (ca = cb) as Heq by congruence.
  destruct Hnear as [Hne | [Hca | Hcb]]; [done | |].
  - apply (path_not_self a _ Ha). apply elem_of_app. right.
    rewrite app_comm_cons. apply elem_of_app. left. congruence.
  - apply (path_not_self b _ Hb). apply elem_of_app. right.
    rewrite app_comm_cons. apply elem_of_app. left. congruence.
Qed.


Lemma climbs_rooted fuel b a :
  climbs h b a -> rooted h fuel (parent (obj h b)) = true ->
  rooted h fuel (parent (obj h a)) = true.
Proof.
  induction 1 as [x | x p y Hx Hc IH]; intros Hr; [done|].
  apply IH. rewrite Hx in Hr. destruct fuel as [|fuel]; simpl in Hr; [done|].
  clear -Hr. revert Hr. generalize (parent (obj h p)). clear p.
  induction fuel as [|fuel IHf]; intros [n|]; simpl; try done.
  apply IHf.
Qed.


Lemma locate_child_in_sound n fs c f o :
  locate_child_in h n fs c = Ok (f, o) ->
  (getattr (obj h n) f = FNode c /\ o = RNode c) \/
  (exists cs, getattr (obj h n) f = FSeq cs /\ c ∈ cs /\ o = RSeq n f).
Proof.
  induction fs as [|g fs IH]; simpl; [done|].
  destruct (getattr (obj h n) g) as [|c'|cs|kvs] eqn:E; try done.
  - case_bool_decide; [|done]. intros [= <- <-]. left. by subst.
  - case_bool_decide; [|done]. intros [= <- <-]. right. eauto.
Qed.

(** The objects [locate_child] returns for two children are the same
    object exactly when the two children sit in the same field. *)
Lemma locate_child_same_field n c1 c2 f1 o1 f2 o2 :
  locate_child h n c1 = Ok (f1, o1) -> locate_child h n c2 = Ok (f2, o2) ->
  o1 = o2 <-> f1 = f2.
Proof.
  intros E1 E2.
  pose proof (locate_child_in_sound _ _ _ _ _ E1) as S1.
  pose proof (locate_child_in_sound _ _ _ _ _ E2) as S2.
  split.
  - intros <-. destruct S1 as [[G1 ->] | (cs1 & G1 & _ & ->)];
      destruct S2 as [[G2 Ho] | (cs2 & G2 & _ & Ho)]; try congruence.
  - intros <-. destruct S1 as [[G1 ->] | (cs1 & G1 & _ & ->)];
      destruct S2 as [[G2 ->] | (cs2 & G2 & _ & ->)]; congruence.
Qed.

(** C1: when the nearest common ancestor of two nodes is an [If] node and
    no exception names are given, [are_exclusive] returns true exactly when
    the two branch-roots lie in different fields of the [If] (false when
    they lie in the same field); when exception names are given it returns
    false. *)
Theorem are_exclusive_if_branches fuel a b N ca cb f1 o1 f2 o2 :
  rooted h fuel (parent (obj h a)) = true ->
  rooted h fuel (parent (obj h b)) = true ->
  nearest_common_parent h a b N ca cb ->
  isinstance h N If = true ->
  locate_child h N ca = Ok (f1, o1) ->
  locate_child h N cb = Ok (f2, o2) ->
  are_exclusive h fuel a b None = Ok (negb (String.eqb f1 f2)) /\
  forall names, are_exclusive h fuel a b (Some names) = Ok false.
Proof.
  intros Hra Hrb Hn HIf E1 E2.
  pose proof (locate_child_same_field _ _ _ _ _ _ _ E1 E2) as Hsame.
  split; [|intros names];
    rewrite (are_exclusive_nearest _ _ _ _ _ _ _ Hra Hrb Hn);
    unfold at_common, common_parent, subscript;
    rewrite lookup_singleton_eq, HIf; simpl.
  - rewrite E2. simpl. rewrite E1. simpl.
    destruct (String.eqb_spec f1 f2) as [Hf|Hf]; simpl.
    + rewrite bool_decide_eq_false_2; [done|]. intros Hne. apply Hne.
      symmetry. by apply Hsame.
    + rewrite bool_decide_eq_true_2; [done|]. intros Ho. apply Hf.
      by apply Hsame.
  - unfold isinstance in *. apply bool_decide_eq_true in HIf.
    rewrite HIf. by rewrite bool_decide_eq_false_2.
Qed.

Lemma catch_loop_spec ns exs :
  forallb (fun n => bool_decide (is_Some (name (obj h n)))) ns = true ->
  exists v, catch_loop h ns exs = Ok v /\
    (truthy v = true <->
     exists n nm, n ∈ ns /\ name (obj h n) = Some nm /\ nm ∈ exs).
Proof.
  induction ns as [|n ns IH]; simpl; intros Hall.
  - exists None. split; [done|]. split; [done|].
    intros (n & nm & Hn & _). by apply elem_of_nil in Hn.
  - apply andb_true_iff in Hall as [Hn Hall].
    apply bool_decide_eq_true in Hn as [nm Hnm]. rewrite Hnm.
    case_bool_decide as Hin.
    + exists (Some true). split; [done|]. split; [|done].
      intros _. exists n, nm. split; [left|done].
    + destruct (IH Hall) as (v & -> & Hv). exists v. split; [done|].
      rewrite Hv. split.
      * intros (n' & nm' & Hn' & ?). exists n', nm'. split; [by right|done].
      * intros (n' & nm' & [->|Hn']%elem_of_cons & Hnm' & Hin').
        -- congruence.
        -- by exists n', nm'.
Qed.

Lemma catch_spec c ex :
  handler_ok h c = true ->
  exists v, catch h c ex = Ok v /\ (truthy v = true <-> catches h c ex).
Proof.
  unfold handler_ok, catch, catches. intros [-> Hty]%andb_true_iff.
  destruct (getattr (obj h c) "type") as [|ty|cs|kvs] eqn:E; try done.
  - exists (Some true). destruct ex; split; try done; split; auto.
  - destruct ex as [names|].
    + destruct (catch_loop_spec _ names Hty) as (v & -> & Hv).
      exists v. split; [done|]. rewrite Hv. split.
      * intros (n & nm & ? & ? & ?). right. by exists ty, n, nm.
      * intros [? | (ty' & n & nm & [= <-] & ? & ? & ?)]; [done|].
        by exists n, nm.
    + by exists (Some true).
Qed.

(** C2: when the nearest common ancestor of two nodes is a [TryExcept],
    one branch-root being in its [body] and the other in its [handlers],
    [are_exclusive] returns true if the handler catches one of the exception
    names (always so when no names are given or the handler has no type
    clause) and false otherwise, in both orders of the arguments. *)
Theorem are_exclusive_try_body_handler fuel a b N ca cb o1 o2 ex :
  rooted h fuel (parent (obj h a)) = true ->
  rooted h fuel (parent (obj h b)) = true ->
  nearest_common_parent h a b N ca cb ->
  isinstance h N TryExcept = true ->
  locate_child h N ca = Ok ("body", o1) ->
  locate_child h N cb = Ok ("handlers", o2) ->
  handler_ok h cb = true ->
  (catches h cb ex ->
     are_exclusive h fuel a b ex = Ok true /\
     are_exclusive h fuel b a ex = Ok true) /\
  (~ catches h cb ex ->
     are_exclusive h fuel a b ex = Ok false /\
     are_exclusive h fuel b a ex = Ok false).
Proof.
  intros Hra Hrb Hn HTry E1 E2 Hok.
  assert (o1 <> o2) as Hne.
  { intros Ho. by apply (locate_child_same_field _ _ _ _ _ _ _ E1 E2) in Ho. }
  assert (isinstance h N If = false) as HIf.
  { unfold isinstance in *. apply bool_decide_eq_true in HTry.
    rewrite HTry. by apply bool_decide_eq_false_2. }
  destruct (catch_spec cb ex Hok) as (v & Hv & Hcatch).
  assert (are_exclusive h fuel a b ex = Ok (truthy v) /\
          are_exclusive h fuel b a ex = Ok (truthy v)) as [Hab Hba].
  { pose proof (proj1 (are_exclusive_swap fuel a b ex Hra Hrb)) as Hsym.
    rewrite <- Hsym. cut (are_exclusive h fuel a b ex = Ok (truthy v)); [done|].
    rewrite (are_exclusive_nearest _ _ _ _ _ _ _ Hra Hrb Hn).
    unfold at_common, common_parent, subscript.
    rewrite lookup_singleton_eq, HIf, HTry. simpl.
    rewrite E2. simpl. rewrite E1. simpl.
    rewrite bool_decide_eq_true_2 by done.
    unfold por, pand. simpl. rewrite Hv. simpl. by destruct (truthy v). }
  rewrite Hab, Hba. split; intros Hc.
  - apply Hcatch in Hc. by rewrite Hc.
  - destruct (truthy v); [|done]. destruct Hc. by apply Hcatch.
Qed.

End AreExclusive.

(** * Properties of [_filter_stmts] *)

Section FilterStmts.
Variable h : heap.

(** C4: when the frame the lookup really starts from (the frame of the
    use node, moved by the offset and by the rule for definition headers)
    is not the frame that owns the candidates, [_filter_stmts] returns the
    candidates as they are. *)
Theorem filter_stmts_other_frame fuel self stmts frame_ offset myframe :
  effective_frame h self offset = Ok myframe ->
  myframe <> frame_ ->
  _filter_stmts h fuel self stmts frame_ offset = Ok stmts.
Proof.
  intros Hf Hne. unfold _filter_stmts. rewrite Hf. simpl.
  by rewrite bool_decide_eq_false_2.
Qed.

Lemma scan_loop_app fuel self mystmt mylineno pre rest acc par :
  scan_loop h fuel self mystmt mylineno (pre ++ rest) acc par
  = st ← scan_loop h fuel self mystmt mylineno pre acc par;
    match st with
    | Broken s => Ok (Broken s)
    | Running a p => scan_loop h fuel self mystmt mylineno rest a p
    end.
Proof.
  revert acc par. induction pre as [|c pre IH]; intros acc par; [done|].
  simpl. destruct (visit h fuel self mystmt mylineno c acc par)
    as [[a p|s]| |]; simpl; auto.
Qed.

Lemma visit_beyond fuel self mystmt mylineno c s lc acc par :
  statement h c = Ok s -> fromlineno h s = Some lc ->
  (0 < mylineno)%Z -> (mylineno < lc)%Z ->
  visit h fuel self mystmt mylineno c acc par = Ok (Broken acc).
Proof.
  intros Hs Hl H0 Hlt. unfold visit, visit_guards. rewrite Hs. simpl.
  rewrite Hl. unfold pand, py_gt. simpl.
  by rewrite !bool_decide_eq_true_2 by done.
Qed.

(** The filter once the first lines have chosen to scan. *)
Lemma filter_stmts_scan fuel self stmts frame_ offset mystmt :
  effective_frame h self offset = Ok frame_ -> self <> frame_ ->
  statement h self = Ok mystmt ->
  _filter_stmts h fuel self stmts frame_ offset
  = st ← scan_loop h fuel self mystmt
           (reference_line h frame_ frame_ mystmt offset) stmts [] [];
    Ok (scanned st).
Proof.
  intros Hf Hne Hs. unfold _filter_stmts. rewrite Hf. simpl.
  rewrite bool_decide_eq_true_2 by done.
  rewrite bool_decide_eq_false_2 by done. simpl. by rewrite Hs.
Qed.

Lemma reference_line_some frame_ mystmt offset l :
  fromlineno h mystmt = Some l ->
  reference_line h frame_ frame_ mystmt offset = (l + offset)%Z.
Proof.
  intros Hl. unfold reference_line. rewrite Hl.
  by rewrite bool_decide_eq_true_2.
Qed.

(** ** Membership in the result *)

Section Invariant.
Variable Q : node -> Prop.
Variables (fuel : nat) (self mystmt : node) (mylineno : Z).
Hypothesis Hmixin : mixin_keeps h.
Hypothesis Hself :
  isinstance h self Const || isinstance h self Name = true -> Q self.

Lemma hook_invariant at_ c acc acc' dn :
  _get_filtered_stmts h at_ self c acc mystmt = Ok (acc', dn) ->
  Forall Q acc -> Q c -> Forall Q acc'.
Proof.
  unfold _get_filtered_stmts, Comprehension_get_filtered_stmts.
  intros H Hacc Hc. destruct (isinstance h at_ Comprehension).
  - case_bool_decide.
    + destruct (isinstance h self Const || isinstance h self Name) eqn:E;
        inversion H; subst; auto.
    + destruct (statement h at_) as [s| |]; simpl in H; try done.
      case_bool_decide; inversion H; subst; auto.
  - apply Forall_forall. intros x Hx.
    destruct (Hmixin _ _ _ _ _ _ _ H x Hx) as [Hin | ->]; [|done].
    by eapply Forall_forall in Hacc.
Qed.

Lemma same_block_invariant c stmt at_ opt acc par acc' par' cont :
  same_block h fuel c stmt at_ opt acc par = Ok (acc', par', cont) ->
  Forall Q acc -> Forall Q acc'.
Proof.
  unfold same_block. intros H Hacc.
  destruct (index par (parent (obj h stmt))) as [pindex|];
    [|by inversion H; subst].
  destruct (item acc pindex) as [earlier| |]; simpl in H; try done.
  destruct (assign_type h earlier) as [at1|]; [|done].
  destruct (parent_of h at1 at_); [by inversion H; subst|].
  unfold por in H. simpl in H.
  destruct opt; [by inversion H; subst|].
  destruct (are_exclusive h fuel earlier c None) as [[]| |]; simpl in H;
    inversion H; subst; [done|].
  by apply Forall_delete.
Qed.

Lemma visit_bind_invariant c stmt opt acc par st :
  visit_bind h fuel self mystmt c stmt opt acc par = Ok st ->
  Forall Q acc -> Q c -> Forall Q (scanned st).
Proof.
  unfold visit_bind. intros H Hacc Hc.
  destruct (isinstance h c DelName); [by inversion H; subst; constructor|].
  destruct (_ && _ && _);
    destruct (are_exclusive h fuel self c None) as [[]| |]; simpl in H;
    inversion H; subst; simpl; auto.
  apply Forall_app. auto.
Qed.

Lemma visit_invariant c acc par st :
  (passes h mylineno c -> Q c) ->
  visit h fuel self mystmt mylineno c acc par = Ok st ->
  Forall Q acc -> Forall Q (scanned st).
Proof.
  intros HQ H Hacc. unfold visit, visit_guards in H.
  destruct (statement h c) as [s| |] eqn:Hs; simpl in H; try done.
  destruct (pand _ _) as [[]| |] eqn:Hbeyond; simpl in H; try done.
  { by inversion H; subst. }
  assert (Q c) as Hc.
  { apply HQ. exists s. split; [done|]. intros H0 lc Hlc.
    unfold pand, py_gt in Hbeyond. rewrite Hlc in Hbeyond.
    simpl in Hbeyond.
    rewrite (bool_decide_eq_true_2 _ H0) in Hbeyond.
    injection Hbeyond as Hb. apply bool_decide_eq_false in Hb. lia. }
  destruct (assign_type h c) as [at_|]; [|done].
  destruct (has_base h c self); [by inversion H; subst|].
  destruct (_get_filtered_stmts h at_ self c acc mystmt)
    as [[acc1 dn]| |] eqn:Hhook; simpl in H; try done.
  pose proof (hook_invariant _ _ _ _ _ Hhook Hacc Hc) as Hacc1.
  destruct dn; [by inversion H; subst|].
  destruct (_ && _); [inversion H; subst; simpl; auto|].
  destruct (same_block h fuel c s at_ _ acc1 par)
    as [[[acc2 par2] cont]| |] eqn:Hblock; simpl in H; try done.
  pose proof (same_block_invariant _ _ _ _ _ _ _ _ _ Hblock Hacc1) as Hacc2.
  destruct cont; [by inversion H; subst|].
  by eapply visit_bind_invariant.
Qed.

Lemma scan_loop_invariant stmts acc par st :
  (forall c, c ∈ stmts -> passes h mylineno c -> Q c) ->
  scan_loop h fuel self mystmt mylineno stmts acc par = Ok st ->
  Forall Q acc -> Forall Q (scanned st).
Proof.
  revert acc par. induction stmts as [|c stmts IH]; intros acc par HQ H Hacc.
  - by inversion H; subst.
  - simpl in H.
    destruct (visit h fuel self mystmt mylineno c acc par) as [st1| |] eqn:Hv;
      simpl in H; try done.
    pose proof (visit_invariant _ _ _ _ (HQ c ltac:(left)) Hv Hacc) as H1.
    destruct st1 as [a p|a]; [|by inversion H; subst].
    apply (IH a p); auto. intros c' Hc'. apply HQ. by right.
Qed.

End Invariant.

Lemma visit_guards_lines lines fuel self mystmt m m' c acc par :
  (m <= 0)%Z -> (m' <= 0)%Z ->
  visit_guards (with_lines h lines) fuel self mystmt m' c acc par
  = visit_guards h fuel self mystmt m c acc par.
Proof.
  intros Hm Hm'. unfold visit_guards.
  change (statement (with_lines h lines) c) with (statement h c).
  destruct (statement h c) as [s| |]; [|done..]. simpl.
  unfold pand. rewrite !(bool_decide_eq_false_2 (0 < _)%Z) by lia.
  reflexivity.
Qed.

Lemma scan_loop_lines lines fuel self mystmt m m' stmts acc par :
  (m <= 0)%Z -> (m' <= 0)%Z ->
  scan_loop (with_lines h lines) fuel self mystmt m' stmts acc par
  = scan_loop h fuel self mystmt m stmts acc par.
Proof.
  intros Hm Hm'. revert acc par.
  induction stmts as [|c stmts IH]; intros acc par; [done|].
  simpl. unfold visit.
  rewrite (visit_guards_lines lines fuel self mystmt m m') by done.
  destruct (visit_guards h fuel self mystmt m c acc par)
    as [[a|a p|a p s o]| |]; simpl; try done.
  change (visit_bind (with_lines h lines)) with (visit_bind h).
  destruct (visit_bind h fuel self mystmt c s o a p) as [[a' p'|a']| |];
    simpl; auto.
Qed.

Lemma filter_stmts_lines lines fuel self stmts frame_ offset mystmt :
  statement h self = Ok mystmt ->
  (forall myframe, (reference_line h myframe frame_ mystmt offset <= 0)%Z) ->
  lines mystmt = None ->
  _filter_stmts (with_lines h lines) fuel self stmts frame_ offset
  = _filter_stmts h fuel self stmts frame_ offset.
Proof.
  intros Hs Hm Hl. unfold _filter_stmts.
  change (effective_frame (with_lines h lines)) with (effective_frame h).
  destruct (effective_frame h self offset) as [myframe| |]; [|done..].
  simpl. destruct (_ || _); [done|]. rewrite Hs. simpl.
  rewrite (scan_loop_lines lines fuel self mystmt
             (reference_line h myframe frame_ mystmt offset)); [done|done|].
  unfold reference_line. simpl. by rewrite Hl.
Qed.

(** C5: with the line horizon enabled (the statement of the use node has a
    start line and this line plus the offset is positive), the scan stops
    at the first candidate whose statement starts after the horizon, and no
    candidate whose statement starts after the horizon is in the result;
    when the statement of the use node has no start line, the result does
    not depend on the start lines of the candidates: no candidate is cut
    off by its line. *)
Theorem filter_stmts_horizon fuel self frame_ offset mystmt :
  effective_frame h self offset = Ok frame_ -> self <> frame_ ->
  statement h self = Ok mystmt ->
  (forall l, fromlineno h mystmt = Some l -> (0 < l + offset)%Z ->
     (forall pre c post s lc,
        statement h c = Ok s -> fromlineno h s = Some lc ->
        (l + offset < lc)%Z ->
        _filter_stmts h fuel self (pre ++ c :: post) frame_ offset
        = _filter_stmts h fuel self pre frame_ offset) /\
     (mixin_keeps h ->
      forall stmts r x,
        _filter_stmts h fuel self stmts frame_ offset = Ok r -> x ∈ r ->
        isinstance h x Name = false -> isinstance h x Const = false ->
        within_horizon h (l + offset) x)) /\
  (fromlineno h mystmt = None ->
   forall lines stmts, lines mystmt = None ->
     _filter_stmts (with_lines h lines) fuel self stmts frame_ offset
     = _filter_stmts h fuel self stmts frame_ offset).
Proof.
  intros Hf Hne Hs. split.
  - intros l Hl Hpos. split.
    + intros pre c post s lc Hsc Hlc Hlt.
      rewrite !(filter_stmts_scan _ _ _ _ _ _ Hf Hne Hs).
      rewrite (reference_line_some _ _ _ _ Hl), scan_loop_app.
      destruct (scan_loop h fuel self mystmt (l + offset) pre [] [])
        as [[a p|a]| |]; simpl; try done.
      by rewrite (visit_beyond _ _ _ _ _ _ _ _ _ Hsc Hlc Hpos Hlt).
    + intros Hmixin stmts r x Hr Hx HName HConst.
      rewrite (filter_stmts_scan _ _ _ _ _ _ Hf Hne Hs) in Hr.
      rewrite (reference_line_some _ _ _ _ Hl) in Hr.
      destruct (scan_loop h fuel self mystmt (l + offset) stmts [] [])
        as [st| |] eqn:Hscan; simpl in Hr; try done.
      injection Hr as <-.
      pose (Q := fun x => isinstance h x Name = false ->
                          isinstance h x Const = false ->
                          within_horizon h (l + offset) x).
      assert (Forall Q (scanned st)) as HQ.
      { eapply (scan_loop_invariant Q); [done | | | exact Hscan | constructor].
        - intros [E|E]%orb_true_iff HN HC; congruence.
        - intros c _ (s & Hsc & Hle) _ _ s' l' Hs' Hl'.
          rewrite Hsc in Hs'. injection Hs' as <-. by apply Hle. }
      eapply Forall_forall in HQ; [|exact Hx]. by apply HQ.
  - intros Hl lines stmts Hlines.
    apply (filter_stmts_lines _ _ _ _ _ _ _ Hs); [|done].
    intros myframe. unfold reference_line. by rewrite Hl.
Qed.

(** C10: when the statement of the use node has a start line but this
    line plus the offset is zero or negative (offset -1 and a use on line
    1), the line horizon is disabled: the result is the one computed when
    that statement has no start line, whatever the lines of the candidates,
    so that candidates on later lines are scanned. *)
Theorem filter_stmts_horizon_disabled fuel self stmts frame_ offset
    mystmt l lines :
  statement h self = Ok mystmt ->
  fromlineno h mystmt = Some l -> (l + offset <= 0)%Z ->
  lines mystmt = None ->
  _filter_stmts h fuel self stmts frame_ offset
  = _filter_stmts (with_lines h lines) fuel self stmts frame_ offset.
Proof.
  intros Hs Hl Hle Hlines. symmetry.
  apply (filter_stmts_lines _ _ _ _ _ _ _ Hs); [|done].
  intros myframe. unfold reference_line. rewrite Hl.
  case_bool_decide; lia.
Qed.

(** C6: when the round of a [DelName] candidate gets to the tests on the
    class of the candidate, it empties the two lists and goes on with the
    next candidate without adding the deletion node: the result is the one
    of the candidates that come after the deletion, and the deletion node is
    in it only if it comes again among them. *)
Theorem filter_stmts_delname fuel self frame_ offset mystmt
    pre d post acc par acc' par' stmt opt :
  effective_frame h self offset = Ok frame_ -> self <> frame_ ->
  statement h self = Ok mystmt ->
  isinstance h d DelName = true ->
  scan_loop h fuel self mystmt (reference_line h frame_ frame_ mystmt offset)
    pre [] [] = Ok (Running acc par) ->
  visit_guards h fuel self mystmt
    (reference_line h frame_ frame_ mystmt offset) d acc par
    = Ok (Go acc' par' stmt opt) ->
  visit h fuel self mystmt (reference_line h frame_ frame_ mystmt offset)
    d acc par = Ok (Running [] []) /\
  _filter_stmts h fuel self (pre ++ d :: post) frame_ offset
  = _filter_stmts h fuel self post frame_ offset /\
  (mixin_keeps h ->
   forall r, _filter_stmts h fuel self (pre ++ d :: post) frame_ offset = Ok r ->
             d ∈ r -> d ∈ post).
Proof.
  intros Hf Hne Hs Hd Hpre Hguards.
  set (m := reference_line h frame_ frame_ mystmt offset) in *.
  assert (visit h fuel self mystmt m d acc par = Ok (Running [] [])) as Hv.
  { unfold visit. rewrite Hguards. simpl. unfold visit_bind. by rewrite Hd. }
  assert (_filter_stmts h fuel self (pre ++ d :: post) frame_ offset
          = _filter_stmts h fuel self post frame_ offset) as Heq.
  { rewrite !(filter_stmts_scan _ _ _ _ _ _ Hf Hne Hs). fold m.
    rewrite scan_loop_app, Hpre. simpl. by rewrite Hv. }
  split; [done|]. split; [done|].
  intros Hmixin r Hr Hin. rewrite Heq in Hr.
  rewrite (filter_stmts_scan _ _ _ _ _ _ Hf Hne Hs) in Hr. fold m in Hr.
  destruct (scan_loop h fuel self mystmt m post [] []) as [st| |] eqn:Hscan;
    simpl in Hr; try done.
  injection Hr as <-.
  pose (Q := fun x => x ∈ post \/
               (x = self /\
                isinstance h self Const || isinstance h self Name = true)).
  assert (Forall Q (scanned st)) as HQ.
  { eapply (scan_loop_invariant Q); [done | | | exact Hscan | constructor].
    - intros E. by right.
    - intros c Hc _. by left. }
  eapply Forall_forall in HQ; [|exact Hin].
  destruct HQ as [?|[-> E]]; [done|].
  unfold isinstance in *. apply bool_decide_eq_true in Hd.
  rewrite Hd in E. by rewrite !bool_decide_eq_false_2 in E.
Qed.

End FilterStmts.

(** * Properties of [unpack_infer] *)

Section UnpackInfer.
Variable h : heap.
Variable generator_stop : bool.

Lemma yield_from_each_all {A B} (k : A -> gen B) xs e rs :
  Forall2 (fun x r => k x = (r, Done)) xs rs ->
  yield_from_each xs e k = (concat rs, e).
Proof.
  induction 1 as [|x r xs rs Hx _ IH]; [done|].
  simpl. by rewrite Hx, IH.
Qed.

Lemma yield_from_each_stop {A B} (k : A -> gen B) xs1 x xs2 e rs r e' :
  Forall2 (fun x r => k x = (r, Done)) xs1 rs ->
  k x = (r, e') -> e' <> Done ->
  yield_from_each (xs1 ++ x :: xs2) e k = (concat rs ++ r, e').
Proof.
  intros Hall Hx He. induction Hall as [|y ry xs1 rs Hy _ IH]; simpl.
  - rewrite Hx. by destruct e'.
  - by rewrite Hy, IH, app_assoc.
Qed.


Lemma unpack_infer_S fuel stmt :
  unpack_infer h generator_stop (S fuel) stmt =
  if isinstance h stmt List || isinstance h stmt Tuple then
    match getattr (obj h stmt) "elts" with
    | FSeq elts =>
        yield_from_each elts Done (unpack_infer h generator_stop fuel)
    | _ => ([], Raised TypeError)
    end
  else
    match next (infer h stmt) with
    | Raise e => ([], generator_raised generator_stop e)
    | OutOfFuel => ([], Starved)
    | Ok inferred_ =>
        if bool_decide (inferred_ = Obj stmt) then ([inferred_], Done)
        else
          let '(values, e) := infer h stmt in
          yield_from_each values (exhausted e)
            (fun inferred_ =>
               match inferred_ with
               | YES => ([YES], Done)
               | Obj n => unpack_infer h generator_stop fuel n
               end)
    end.
Proof. reflexivity. Qed.


End UnpackInfer.

(** * Properties of [Dict.getitem] *)

Section DictGetitem.
Variable h : heap.

Lemma key_matches_spec vals lookup_key :
  key_matches h vals lookup_key = true <->
  exists k, Obj k ∈ vals /\ isinstance h k Const = true /\
            py_eq (value (obj h k)) lookup_key = true.
Proof.
  induction vals as [|[|k] vals IH]; simpl.
  - split; [done|]. intros (k & Hk & _). by apply elem_of_nil in Hk.
  - rewrite IH. split; intros (k & Hk & ?); exists k; split; try done.
    + by right.
    + by apply elem_of_cons in Hk as [?|?].
  - destruct (isinstance h k Const && py_eq (value (obj h k)) lookup_key)
      eqn:E.
    + split; [|done]. intros _. apply andb_true_iff in E as [? ?].
      exists k. split; [left|done].
    + rewrite IH. split; intros (k' & Hk & HC & Heq); exists k'.
      * split; [by right|done].
      * split; [|done]. apply elem_of_cons in Hk as [[= ->]|?]; [|done].
        by rewrite HC, Heq in E.
Qed.

Lemma key_matches_yields key lookup_key :
  key_matches h (infer h key).1 lookup_key = true <->
  yields_const h key lookup_key.
Proof. apply key_matches_spec. Qed.

Lemma getitem_loop_pre pre rest lookup_key :
  Forall (passed_over h lookup_key) pre ->
  getitem_loop h (pre ++ rest) lookup_key = getitem_loop h rest lookup_key.
Proof.
  induction 1 as [|[key value_] pre [Hdone Hno] _ IH]; [done|].
  cbn [app getitem_loop fst snd] in *.
  destruct (infer h key) as [vals e] eqn:E. cbn [snd] in Hdone.
  rewrite Hdone. rewrite <- key_matches_yields, E in Hno. cbn [fst] in Hno.
  by destruct (key_matches h vals lookup_key).
Qed.

(** C8, as amended: [Dict.getitem] goes through the items in order and
    infers the key of each.  It returns the value of the first item whose
    key is inferred to a constant equal to the lookup key, as long as the
    inference of the keys before it ended without an exception; when the
    inference of every key ends without an exception and no key matches, it
    raises [IndexError], which is not [KeyError]; an exception that the
    inference of a key raises before a match is found goes through to the
    caller as it is, whether a later key matches or not. *)
Theorem dict_getitem_lookup self items lookup_key :
  getattr (obj h self) "items" = FPairs items ->
  (forall pre key value_ post,
     items = pre ++ (key, value_) :: post ->
     Forall (passed_over h lookup_key) pre ->
     yields_const h key lookup_key ->
     Dict_getitem h self lookup_key = Ok value_) /\
  (Forall (passed_over h lookup_key) items ->
     Dict_getitem h self lookup_key = Raise (IndexError (Some lookup_key)) /\
     Dict_getitem h self lookup_key <> Raise KeyError) /\
  (forall pre key value_ post exc,
     items = pre ++ (key, value_) :: post ->
     Forall (passed_over h lookup_key) pre ->
     ~ yields_const h key lookup_key ->
     exhausted (infer h key).2 = Raised exc ->
     Dict_getitem h self lookup_key = Raise exc).
Proof.
  intros Hitems. unfold Dict_getitem. rewrite Hitems.
  split; [|split].
  - intros pre key value_ post -> Hpre Hyes.
    rewrite (getitem_loop_pre _ _ _ Hpre). simpl.
    apply key_matches_yields in Hyes.
    destruct (infer h key) as [vals e]. simpl in Hyes. by rewrite Hyes.
  - intros Hall.
    assert (getitem_loop h items lookup_key
            = Raise (IndexError (Some lookup_key))) as ->; [|done].
    rewrite <- (app_nil_r items). by rewrite (getitem_loop_pre _ _ _ Hall).
  - intros pre key value_ post exc -> Hpre Hno Hexc.
    rewrite (getitem_loop_pre _ _ _ Hpre). cbn [getitem_loop].
    rewrite <- key_matches_yields in Hno.
    destruct (infer h key) as [vals e]. cbn [fst snd] in *. rewrite Hexc.
    by destruct (key_matches h vals lookup_key).
Qed.

End DictGetitem.

(** * The unit tests of [tests/unittest_utils.py], and instances *)

Example test_not_exclusive :
  are_exclusive tree_seq 10 2 15 None = Ok false /\
  are_exclusive tree_seq 10 2 22 None = Ok false.
Proof. split; reflexivity. Qed.

Example test_if :
  are_exclusive tree_if 10 4 7 None = Ok false /\
  are_exclusive tree_if 10 4 12 None = Ok true /\
  are_exclusive tree_if 10 4 18 None = Ok true /\
  are_exclusive tree_if 10 12 18 None = Ok true /\
  are_exclusive tree_if 10 12 15 None = Ok false /\
  are_exclusive tree_if 10 18 21 None = Ok false.
Proof. repeat split; reflexivity. Qed.

Example test_try_except :
  are_exclusive tree_try 10 2 5 None = Ok true /\
  are_exclusive tree_try 10 2 7 None = Ok true /\
  are_exclusive tree_try 10 2 8 None = Ok false /\
  are_exclusive tree_try 10 5 8 None = Ok true /\
  are_exclusive tree_try 10 7 8 None = Ok true /\
  are_exclusive tree_try 10 7 5 None = Ok true /\
  are_exclusive tree_try 10 5 2 None = Ok true /\
  are_exclusive tree_try 10 8 2 None = Ok false /\
  are_exclusive tree_try 10 8 5 None = Ok true.
Proof. repeat split; reflexivity. Qed.

Example test_try_except_names :
  are_exclusive tree_try 10 2 5 (Some ["TypeError"]) = Ok true /\
  are_exclusive tree_try 10 2 5 (Some ["ValueError"]) = Ok false /\
  are_exclusive tree_try 10 2 7 (Some ["ValueError"]) = Ok true.
Proof. repeat split; reflexivity. Qed.

Example test_unpack_infer_uninferable_nodes :
  forall generator_stop,
    unpack_infer tree_unpack generator_stop 10 0 = ([YES; YES; YES], Done).
Proof. by intros []. Qed.

(** An inferred value whose own inference gives nothing: the unpacking
    goes on with the next value, or ends in [RuntimeError] where PEP 479
    is in force. *)
Example test_unpack_infer_empty_inference :
  unpack_infer tree_silent false 10 0 = ([YES], Done) /\
  unpack_infer tree_silent true 10 0 = ([], Raised RuntimeError).
Proof. split; reflexivity. Qed.

(** A key whose inference fails, before the key that matches. *)
Example test_dict_getitem_failing_key :
  Dict_getitem tree_dict_u 0 (PyStr "k") = Raise InferenceError /\
  Dict_getitem tree_dict_u 0 (PyInt 7) = Raise InferenceError.
Proof. split; reflexivity. Qed.

Example test_filter_stmts_del :
  _filter_stmts tree_del 20 10 [2; 5; 7; 12] 0 0 = Ok [7] /\
  _filter_stmts tree_del 20 16 [2; 5; 7; 12] 0 0 = Ok [2; 5; 7; 12].
Proof. split; reflexivity. Qed.

Example test_filter_stmts_class_base :
  _filter_stmts tree_class 20 2 [5] 0 (-1) = Ok [5] /\
  _filter_stmts tree_class 20 2 [5] 0 0 = Ok [].
Proof. split; reflexivity. Qed.

Example test_dict_getitem :
  Dict_getitem tree_dict 0 (PyStr "k") = Ok 4 /\
  Dict_getitem tree_dict 0 (PyBool true) = Ok 2 /\
  Dict_getitem tree_dict 0 (PyInt 7) = Raise (IndexError (Some (PyInt 7))) /\
  Dict_getitem tree_dict 7 (PyInt 7) = Raise InferenceError.
Proof. repeat split; reflexivity. Qed.

(** Two assignments in the two branches of an [if]. *)
Lemma are_exclusive_if_branches_witness :
  are_exclusive tree_if 10 4 12 None = Ok true /\
  forall names, are_exclusive tree_if 10 4 12 (Some names) = Ok false.
Proof.
  apply (are_exclusive_if_branches tree_if 10 4 12 1 3 9
           "body" (RSeq 1 "body") "orelse" (RSeq 1 "orelse"));
    try reflexivity.
  split; [|split].
  - apply (branch_up tree_if 4 3); [reflexivity|].
    apply branch_here. reflexivity.
  - apply (branch_up tree_if 12 11); [reflexivity|].
    apply (branch_up tree_if 11 9); [reflexivity|].
    apply branch_here. reflexivity.
  - left. lia.
Defined.

(** The function of the [try] body and the one of the first handler. *)
Lemma are_exclusive_try_body_handler_witness :
  (catches tree_try 3 (Some ["TypeError"]) ->
     are_exclusive tree_try 10 2 5 (Some ["TypeError"]) = Ok true /\
     are_exclusive tree_try 10 5 2 (Some ["TypeError"]) = Ok true) /\
  (~ catches tree_try 3 (Some ["TypeError"]) ->
     are_exclusive tree_try 10 2 5 (Some ["TypeError"]) = Ok false /\
     are_exclusive tree_try 10 5 2 (Some ["TypeError"]) = Ok false).
Proof.
  apply (are_exclusive_try_body_handler tree_try 10 2 5 1 2 3
           (RSeq 1 "body") (RSeq 1 "handlers"));
    try reflexivity.
  split; [|split].
  - apply branch_here. reflexivity.
  - apply (branch_up tree_try 5 3); [reflexivity|].
    apply branch_here. reflexivity.
  - left. lia.
Defined.

Lemma are_exclusive_sym_witness :
  are_exclusive tree_try 10 2 5 None = are_exclusive tree_try 10 5 2 None /\
  are_exclusive tree_try 10 2 5 None <> OutOfFuel.
Proof. apply (are_exclusive_sym tree_try 10 2 5 None); reflexivity. Defined.


(** The use of [x] inside [f], with the candidates of the module. *)
Lemma filter_stmts_other_frame_witness :
  _filter_stmts tree_del 20 16 [2; 5; 7; 12] 0 0 = Ok [2; 5; 7; 12].
Proof.
  apply (filter_stmts_other_frame tree_del 20 16 [2; 5; 7; 12] 0 0 14);
    [reflexivity | lia].
Defined.

(** The use of [x] on line 4; the assignment of line 5 is after it. *)
Lemma filter_stmts_horizon_witness :
  _filter_stmts tree_del 20 10 ([2; 5; 7] ++ 12 :: []) 0 0
  = _filter_stmts tree_del 20 10 [2; 5; 7] 0 0.
Proof.
  destruct (filter_stmts_horizon tree_del 20 10 0 0 9) as [H _];
    [reflexivity | lia | reflexivity |].
  destruct (H 4%Z) as [Hstop _]; [reflexivity | lia |].
  apply (Hstop [2; 5; 7] 12 [] 11 5%Z); [reflexivity | reflexivity | lia].
Defined.

(** The base [B] of the class of line 1, looked up with offset -1. *)
Lemma filter_stmts_horizon_disabled_witness :
  _filter_stmts tree_class 20 2 [5] 0 (-1)
  = _filter_stmts (with_lines tree_class (fun _ => None)) 20 2 [5] 0 (-1).
Proof.
  apply (filter_stmts_horizon_disabled tree_class 20 2 [5] 0 (-1) 1 1%Z);
    [reflexivity | reflexivity | lia | reflexivity].
Defined.

(** [del x] between two assignments of [x]. *)
Lemma filter_stmts_delname_witness :
  visit tree_del 20 10 9 (reference_line tree_del 0 0 9 0) 5 [2] [Some 0]
  = Ok (Running [] []) /\
  _filter_stmts tree_del 20 10 ([2] ++ 5 :: [7; 12]) 0 0
  = _filter_stmts tree_del 20 10 [7; 12] 0 0 /\
  (mixin_keeps tree_del ->
   forall r, _filter_stmts tree_del 20 10 ([2] ++ 5 :: [7; 12]) 0 0 = Ok r ->
             5 ∈ r -> 5 ∈ [7; 12]).
Proof.
  apply (filter_stmts_delname tree_del 20 10 0 0 9 [2] 5 [7; 12]
           [2] [Some 0] [] [] 4 false);
    [reflexivity | lia | reflexivity..].
Defined.


(** The dictionary [{u: 3, "k": 2}]: the key ["k"] is there and 7 is not,
    and both lookups end in the exception of the inference of [u]. *)
Lemma dict_getitem_lookup_counterexample :
  getattr (obj tree_dict_u 0) "items" = FPairs [(1, 2); (3, 4)] /\
  ~ yields_const tree_dict_u 1 (PyStr "k") /\
  yields_const tree_dict_u 3 (PyStr "k") /\
  Dict_getitem tree_dict_u 0 (PyStr "k") <> Ok 4 /\
  ~ yields_const tree_dict_u 1 (PyInt 7) /\
  ~ yields_const tree_dict_u 3 (PyInt 7) /\
  Dict_getitem tree_dict_u 0 (PyInt 7) <> Raise (IndexError (Some (PyInt 7))) /\
  Dict_getitem tree_dict_u 0 (PyStr "k") = Raise InferenceError /\
  Dict_getitem tree_dict_u 0 (PyInt 7) = Raise InferenceError.
Proof.
  assert (forall key, ~ yields_const tree_dict_u 1 key) as Hu.
  { intros key (k & Hk & _). by apply elem_of_nil in Hk. }
  repeat split; try done.
  - exists 3. split; [by apply list_elem_of_singleton|done].
  - intros (k & Hk & _ & Heq). apply list_elem_of_singleton in Hk.
    injection Hk as ->. discriminate Heq.
Qed.

(** No key of [{1: "a", "k": 2}] is equal to 7. *)
Lemma dict_getitem_lookup_witness :
  Dict_getitem tree_dict 0 (PyInt 7) = Raise (IndexError (Some (PyInt 7))) /\
  Dict_getitem tree_dict 0 (PyInt 7) <> Raise KeyError.
Proof.
  destruct (dict_getitem_lookup tree_dict 0 [(1, 2); (3, 4)] (PyInt 7))
    as (_ & H & _); [reflexivity|].
  apply H. repeat constructor.
  - intros (k & Hk & _ & Heq). apply list_elem_of_singleton in Hk.
    injection Hk as ->. discriminate Heq.
  - intros (k & Hk & HC & Heq). simpl in Hk.
    apply elem_of_cons in Hk as [Hk|Hk]; [discriminate Hk|].
    apply list_elem_of_singleton in Hk. injection Hk as ->.
    discriminate Heq.
Defined.

(** * Further properties of [are_exclusive] *)

Section AreExclusiveMore.
Variable h : heap.

Lemma isinstance_other n c c' :
  isinstance h n c = true -> c <> c' -> isinstance h n c' = false.
Proof.
  unfold isinstance. intros Hc%bool_decide_eq_true Hne.
  apply bool_decide_eq_false_2. congruence.
Qed.

(** The test at a [TryExcept] common parent, once the two children are
    located. *)
Lemma at_common_try N c2 c1 f2 o2 f1 o1 ex :
  isinstance h N TryExcept = true ->
  locate_child h N c2 = Ok (f2, o2) -> locate_child h N c1 = Ok (f1, o1) ->
  at_common h N c2 c1 ex =
  if bool_decide (o1 <> o2) then
    cond ←
      por (pand (Ok (String.eqb f2 "body"))
             (pand (Ok (String.eqb f1 "handlers"))
                (v ← catch h c1 ex; Ok (truthy v))))
     (por (pand (Ok (String.eqb f2 "handlers"))
             (pand (Ok (String.eqb f1 "body"))
                (v ← catch h c2 ex; Ok (truthy v))))
     (por (Ok (String.eqb f2 "handlers" && String.eqb f1 "orelse"))
          (Ok (String.eqb f2 "orelse" && String.eqb f1 "handlers"))));
    if cond : bool then Ok true else Ok false
  else if String.eqb f2 "handlers" && String.eqb f1 "handlers" then
    Ok (bool_decide (c2 <> c1))
  else Ok false.
Proof.
  intros HT E2 E1. unfold at_common, common_parent, subscript.
  rewrite lookup_singleton_eq.
  rewrite (isinstance_other _ _ If HT) by done. rewrite HT. simpl.
  rewrite E2. simpl. rewrite E1. simpl. reflexivity.
Qed.

(** X1: two nodes under two different handlers of the same [TryExcept]
    are exclusive, whatever the exception names. *)
Theorem are_exclusive_two_handlers fuel a b N ca cb o1 o2 ex :
  rooted h fuel (parent (obj h a)) = true ->
  rooted h fuel (parent (obj h b)) = true ->
  nearest_common_parent h a b N ca cb ->
  isinstance h N TryExcept = true ->
  locate_child h N ca = Ok ("handlers", o1) ->
  locate_child h N cb = Ok ("handlers", o2) ->
  ca <> cb ->
  are_exclusive h fuel a b ex = Ok true.
Proof.
  intros Hra Hrb Hn HT E1 E2 Hne.
  rewrite (are_exclusive_nearest _ _ _ _ _ _ _ _ Hra Hrb Hn).
  rewrite (at_common_try _ _ _ _ _ _ _ _ HT E2 E1).
  assert (o1 = o2) as -> by by apply (locate_child_same_field _ _ _ _ _ _ _ _ E1 E2).
  rewrite bool_decide_eq_false_2 by naive_solver. simpl.
  by rewrite bool_decide_eq_true_2 by naive_solver.
Qed.

(** X2: a node under a handler of a [TryExcept] and a node in its
    [orelse] are exclusive, in both orders and whatever the exception
    names. *)
Theorem are_exclusive_handler_orelse fuel a b N ca cb o1 o2 ex :
  rooted h fuel (parent (obj h a)) = true ->
  rooted h fuel (parent (obj h b)) = true ->
  nearest_common_parent h a b N ca cb ->
  isinstance h N TryExcept = true ->
  locate_child h N ca = Ok ("handlers", o1) ->
  locate_child h N cb = Ok ("orelse", o2) ->
  are_exclusive h fuel a b ex = Ok true /\
  are_exclusive h fuel b a ex = Ok true.
Proof.
  intros Hra Hrb Hn HT E1 E2.
  assert (are_exclusive h fuel a b ex = Ok true) as Hab.
  { rewrite (are_exclusive_nearest _ _ _ _ _ _ _ _ Hra Hrb Hn).
    rewrite (at_common_try _ _ _ _ _ _ _ _ HT E2 E1).
    rewrite bool_decide_eq_true_2; [done|].
    intros Ho. by apply (locate_child_same_field _ _ _ _ _ _ _ _ E1 E2) in Ho. }
  split; [done|].
  by rewrite <- (proj1 (are_exclusive_swap h fuel a b ex Hra Hrb)).
Qed.

(** X3: at a [TryExcept] common parent, two nodes of which none is under
    a handler (both in the body, both in [orelse], or one in each) are not
    exclusive. *)
Theorem are_exclusive_try_no_handler fuel a b N ca cb f1 o1 f2 o2 ex :
  rooted h fuel (parent (obj h a)) = true ->
  rooted h fuel (parent (obj h b)) = true ->
  nearest_common_parent h a b N ca cb ->
  isinstance h N TryExcept = true ->
  locate_child h N ca = Ok (f1, o1) ->
  locate_child h N cb = Ok (f2, o2) ->
  f1 <> "handlers" -> f2 <> "handlers" ->
  are_exclusive h fuel a b ex = Ok false.
Proof.
  intros Hra Hrb Hn HT E1 E2 H1 H2.
  rewrite (are_exclusive_nearest _ _ _ _ _ _ _ _ Hra Hrb Hn).
  rewrite (at_common_try _ _ _ _ _ _ _ _ HT E2 E1).
  apply String.eqb_neq in H1, H2. rewrite H1, H2.
  unfold por, pand. simpl. rewrite ?andb_false_r.
  case_bool_decide; [|done]. by destruct (String.eqb f2 "body").
Qed.

Lemma path_branch_root x A' N T :
  path h (parent (obj h x)) (A' ++ N :: T) ->
  branch_root h x N (List.last A' x).
Proof.
  revert x. induction A' as [|y A' IH]; intros x Hp.
  - simpl in *. apply branch_here.
    by inversion Hp.
  - rewrite last_cons. simpl in Hp.
    assert (parent (obj h x) = Some y) as Hx by by inversion Hp.
    apply (branch_up h x y); [done|]. apply IH.
    rewrite Hx in Hp. by inversion Hp.
Qed.

(** What [are_exclusive] comes down to, for all exception names at once:
    no common parent, or the test at the nearest one. *)
Lemma are_exclusive_cases fuel a b :
  rooted h fuel (parent (obj h a)) = true ->
  rooted h fuel (parent (obj h b)) = true ->
  (forall ex, are_exclusive h fuel a b ex = Ok false) \/
  exists N ca cb,
    branch_root h a N ca /\ branch_root h b N cb /\
    forall ex, are_exclusive h fuel a b ex = at_common h N cb ca ex.
Proof.
  intros (la & Ha & Hla)%rooted_path (lb & Hb & Hlb)%rooted_path.
  destruct (first_common la lb) as [Hdis | (B' & N & T' & -> & HN & Hdis)].
  - left. intros ex. by apply (are_exclusive_disjoint h fuel a b ex la lb).
  - right. apply list_elem_of_split in HN as (A' & T & ->).
    pose proof (path_same_tail _ _ _ _ _ _ _ _ Ha Hb) as <-.
    exists N, (List.last A' a), (List.last B' b).
    split; [by apply (path_branch_root a A' N T)|].
    split; [by apply (path_branch_root b B' N T)|].
    intros ex. by apply (are_exclusive_meet h fuel a b ex A' N T B' T).
Qed.

(** X4: [are_exclusive] answers true only for two nodes that have a
    nearest common parent with two different branch-roots, this parent
    being an [If] (and no exception names given) or a [TryExcept]; with no
    common parent, or any other class of common parent, the answer is not
    true. *)
Theorem are_exclusive_true_only fuel a b ex :
  rooted h fuel (parent (obj h a)) = true ->
  rooted h fuel (parent (obj h b)) = true ->
  are_exclusive h fuel a b ex = Ok true ->
  exists N ca cb,
    nearest_common_parent h a b N ca cb /\ ca <> cb /\
    ((isinstance h N If = true /\ ex = None) \/
     isinstance h N TryExcept = true).
Proof.
  intros Hra Hrb Htrue.
  destruct (are_exclusive_cases fuel a b Hra Hrb)
    as [Hno | (N & ca & cb & Ha & Hb & Heq)].
  { by rewrite Hno in Htrue. }
  rewrite Heq in Htrue. exists N, ca, cb.
  assert (ca <> cb) as Hne.
  { intros ->. destruct (locate_child_cases h N cb) as [[r Hr] | Hr].
    - by rewrite (at_common_same _ _ _ _ _ Hr) in Htrue.
    - unfold at_common, common_parent, subscript in Htrue.
      rewrite lookup_singleton_eq, Hr in Htrue.
      by repeat (destruct (_ && _) || destruct (isinstance _ _ _)). }
  split; [repeat split; auto|]. split; [done|].
  unfold at_common, common_parent in Htrue.
  destruct (isinstance h N If) eqn:HIf; simpl in Htrue.
  - case_bool_decide; [by left|].
    rewrite (isinstance_other _ _ TryExcept HIf) in Htrue; done.
  - destruct (isinstance h N TryExcept); [by right|done].
Qed.

Lemma climbs_branch_root_above x y N c :
  climbs h x y -> branch_root h y N c -> branch_root h x N c.
Proof.
  induction 1 as [x | x p y Hx Hc IH]; [done|].
  intros Hb. eapply branch_up; eauto.
Qed.

(** X5: the answer is the one of the two branch-roots: with a nearest
    common parent and two different branch-roots, any node at or below [a]
    and any node at or below [b] get the answer that [a] and [b] get. *)
Theorem are_exclusive_below fuel a b a' b' N ca cb ex :
  rooted h fuel (parent (obj h a')) = true ->
  rooted h fuel (parent (obj h b')) = true ->
  nearest_common_parent h a b N ca cb -> ca <> cb ->
  climbs h a' a -> climbs h b' b ->
  are_exclusive h fuel a' b' ex = are_exclusive h fuel a b ex.
Proof.
  intros Hra Hrb (Ha & Hb & _) Hne Hca Hcb.
  rewrite (are_exclusive_nearest h fuel a' b' N ca cb ex); try done.
  - rewrite (are_exclusive_nearest h fuel a b N ca cb ex); try done.
    + by eapply climbs_rooted.
    + by eapply climbs_rooted.
    + repeat split; auto.
  - split; [by eapply climbs_branch_root_above|].
    split; [by eapply climbs_branch_root_above|auto].
Qed.

Lemma catch_loop_mono ns names names' v :
  catch_loop h ns names = Ok v -> truthy v = true -> names ⊆ names' ->
  catch_loop h ns names' = Ok (Some true).
Proof.
  intros H Hv Hsub. induction ns as [|n ns IH]; simpl in *.
  - injection H as <-. done.
  - destruct (name (obj h n)) as [nm|]; [|done].
    case_bool_decide as Hin.
    + rewrite bool_decide_eq_true_2; [done|]. by apply Hsub.
    + case_bool_decide; [done|]. by apply IH.
Qed.

Lemma catch_wider c ex ex' v :
  wider ex ex' -> catch h c ex = Ok v -> truthy v = true ->
  exists v', catch h c ex' = Ok v' /\ truthy v' = true.
Proof.
  unfold catch. intros Hw H Hv.
  destruct (isinstance h c ExceptHandler); [|done].
  destruct (getattr (obj h c) "type") as [|ty|cs|kvs];
    destruct ex as [names|], ex' as [names'|]; simpl in Hw; try done;
    try (by exists (Some true)).
  exists (Some true). split; [|done]. by eapply catch_loop_mono.
Qed.

Lemma at_common_wider N c2 c1 ex ex' :
  wider ex ex' -> (ex = None -> ex' = None) ->
  at_common h N c2 c1 ex = Ok true -> at_common h N c2 c1 ex' = Ok true.
Proof.
  intros Hw Hnone Htrue.
  destruct (isinstance h N TryExcept) eqn:HT.
  - destruct (locate_child_cases h N c2) as [[[f2 o2] E2] | E2];
      destruct (locate_child_cases h N c1) as [[[f1 o1] E1] | E1];
      try (unfold at_common, common_parent, subscript in Htrue;
           rewrite lookup_singleton_eq, HT, ?E2 in Htrue;
           rewrite (isinstance_other _ _ If HT) in Htrue by done;
           simpl in Htrue; rewrite ?E1 in Htrue; by simpl in Htrue).
    rewrite (at_common_try _ _ _ _ _ _ _ ex HT E2 E1) in Htrue.
    rewrite (at_common_try _ _ _ _ _ _ _ ex' HT E2 E1).
    case_bool_decide; [|done]. unfold por, pand in *. simpl in *.
    pose proof (catch_wider c1 ex ex' ) as H1.
    pose proof (catch_wider c2 ex ex' ) as H2.
    repeat match goal with
           | |- context [String.eqb ?x ?y] => destruct (String.eqb_spec x y)
           end; simpl in *; try done; try congruence.
    + destruct (catch h c2 ex) as [v| |]; simpl in Htrue; try done.
      destruct (truthy v) eqn:Hv; simpl in Htrue; try done.
      destruct (H2 v Hw eq_refl Hv) as (v' & -> & Hv'). simpl.
      by rewrite Hv'.
    + destruct (catch h c1 ex) as [v| |]; simpl in Htrue; try done.
      destruct (truthy v) eqn:Hv; simpl in Htrue; try done.
      destruct (H1 v Hw eq_refl Hv) as (v' & -> & Hv'). simpl.
      by rewrite Hv'.
  - unfold at_common, common_parent in *. rewrite HT in *.
    destruct (isinstance h N If); simpl in *; [|done].
    destruct ex as [names|]; [by rewrite bool_decide_eq_false_2 in Htrue|].
    by rewrite (Hnone eq_refl).
Qed.

(** X6: exception names only take exclusivity away: when [are_exclusive]
    answers true for a list of exception names, it answers true with no
    names given, and with any list that has these names in it. *)
Theorem are_exclusive_names_reduce fuel a b names :
  rooted h fuel (parent (obj h a)) = true ->
  rooted h fuel (parent (obj h b)) = true ->
  are_exclusive h fuel a b (Some names) = Ok true ->
  are_exclusive h fuel a b None = Ok true /\
  forall names', names ⊆ names' ->
    are_exclusive h fuel a b (Some names') = Ok true.
Proof.
  intros Hra Hrb Htrue.
  destruct (are_exclusive_cases fuel a b Hra Hrb)
    as [Hno | (N & ca & cb & _ & _ & Heq)].
  { by rewrite Hno in Htrue. }
  rewrite Heq in Htrue. split; [|intros names' Hsub]; rewrite Heq.
  - by apply (at_common_wider _ _ _ (Some names) None).
  - by apply (at_common_wider _ _ _ (Some names) (Some names')).
Qed.

Lemma catch_loop_raise ns names e :
  catch_loop h ns names = Raise e -> e = AttributeError.
Proof.
  induction ns as [|n ns IH]; simpl; [done|].
  destruct (name (obj h n)); [|congruence]. by case_bool_decide.
Qed.

Lemma catch_raise c ex e : catch h c ex = Raise e -> e = AttributeError.
Proof.
  unfold catch. destruct (isinstance h c ExceptHandler); [|congruence].
  destruct (getattr (obj h c) "type"), ex; try congruence.
  apply catch_loop_raise.
Qed.

Lemma at_common_raise N c2 c1 ex e :
  at_common h N c2 c1 ex = Raise e -> e = AstroidError \/ e = AttributeError.
Proof.
  unfold at_common, common_parent, subscript.
  rewrite !lookup_singleton_eq.
  destruct (locate_child_cases h N c1) as [[[f1 o1] E1] | E1];
    destruct (locate_child_cases h N c2) as [[[f2 o2] E2] | E2];
    destruct (isinstance h N If && bool_decide (ex = None));
    [| destruct (isinstance h N TryExcept); [|done]
     | | destruct (isinstance h N TryExcept); [|done]
     | | destruct (isinstance h N TryExcept); [|done]
     | | destruct (isinstance h N TryExcept); [|done] ];
    rewrite ?E1, ?E2; simpl; rewrite ?E1, ?E2; simpl;
    try (intros [= <-]; by left).
  { by case_bool_decide. }
  case_bool_decide; [|by destruct (_ && _)].
  unfold por, pand. simpl.
  repeat match goal with
         | |- context [String.eqb ?x ?y] => destruct (String.eqb x y)
         end; simpl; try done;
  repeat match goal with
         | |- context [catch h ?c ex] =>
             let E := fresh "E" in
             destruct (catch h c ex) as [[[]|]|?|] eqn:E; simpl; try done;
             try (intros [= ->]; right; by eapply catch_raise)
         end.
Qed.

(** X7: with finite parent chains the subscript [children[node]] never
    fails: no [KeyError] leaves [are_exclusive]; an exception that leaves it
    is the [AstroidError] of [locate_child] or the [AttributeError] of
    [catch]. *)
Theorem are_exclusive_raises fuel a b ex e :
  rooted h fuel (parent (obj h a)) = true ->
  rooted h fuel (parent (obj h b)) = true ->
  are_exclusive h fuel a b ex = Raise e ->
  e = AstroidError \/ e = AttributeError.
Proof.
  intros Hra Hrb Hraise.
  destruct (are_exclusive_cases fuel a b Hra Hrb)
    as [Hno | (N & ca & cb & _ & _ & Heq)].
  { by rewrite Hno in Hraise. }
  rewrite Heq in Hraise. by eapply at_common_raise.
Qed.

(** X8: when the two branch-roots are found among the children of the
    nearest common parent and a branch-root found in [handlers] is a
    well-formed handler, [are_exclusive] returns a boolean. *)
Theorem are_exclusive_returns fuel a b N ca cb f1 o1 f2 o2 ex :
  rooted h fuel (parent (obj h a)) = true ->
  rooted h fuel (parent (obj h b)) = true ->
  nearest_common_parent h a b N ca cb ->
  locate_child h N ca = Ok (f1, o1) ->
  locate_child h N cb = Ok (f2, o2) ->
  (f1 = "handlers" -> handler_ok h ca = true) ->
  (f2 = "handlers" -> handler_ok h cb = true) ->
  exists r, are_exclusive h fuel a b ex = Ok r.
Proof.
  intros Hra Hrb Hn E1 E2 H1 H2.
  rewrite (are_exclusive_nearest _ _ _ _ _ _ _ _ Hra Hrb Hn).
  destruct (isinstance h N TryExcept) eqn:HT.
  - rewrite (at_common_try _ _ _ _ _ _ _ ex HT E2 E1).
    case_bool_decide; [|destruct (_ && _); eauto].
    unfold por, pand. simpl.
    repeat match goal with
           | |- context [String.eqb ?x ?y] => destruct (String.eqb_spec x y)
           end; simpl; eauto;
    repeat match goal with
           | |- context [catch h ca ex] =>
               destruct (catch_spec h ca ex) as (? & -> & _);
               [by auto|]; simpl
           | |- context [catch h cb ex] =>
               destruct (catch_spec h cb ex) as (? & -> & _);
               [by auto|]; simpl
           | |- context [truthy ?v] => destruct (truthy v); simpl
           end; eauto.
  - unfold at_common, common_parent, subscript.
    rewrite lookup_singleton_eq, HT.
    destruct (_ && _); simpl; [|eauto].
    rewrite E2. simpl. rewrite E1. simpl. case_bool_decide; eauto.
Qed.

End AreExclusiveMore.

(** * Further properties of [_filter_stmts] *)

Section FilterStmtsMore.
Variable h : heap.

(** X9: a lookup that starts from the frame that owns the candidates is
    not filtered: [_filter_stmts] returns the candidates as they are. *)
Theorem filter_stmts_from_frame fuel self stmts offset myframe :
  effective_frame h self offset = Ok myframe ->
  _filter_stmts h fuel self stmts self offset = Ok stmts.
Proof.
  intros Hf. unfold _filter_stmts. rewrite Hf. simpl.
  rewrite (bool_decide_eq_true_2 (self = self)) by done.
  by rewrite orb_true_r.
Qed.

Lemma visit_guards_line_ok fuel self mystmt m c s lc acc par :
  statement h c = Ok s -> fromlineno h s = Some lc -> (lc <= m)%Z ->
  visit_guards h fuel self mystmt m c acc par =
  match assign_type h c with
  | None => Raise AssertionError
  | Some assign_type_ =>
      if has_base h c self then Ok (Leave acc)
      else
        '(_stmts, dn) ←
           _get_filtered_stmts h assign_type_ self c acc mystmt;
        if dn : bool then Ok (Leave _stmts)
        else
          let optional_assign_ := get_optional_assign h assign_type_ in
          if optional_assign_ && parent_of h assign_type_ self then
            Ok (Skip [c] [parent (obj h s)])
          else
            '(_stmts, _stmt_parents, continue_) ←
               same_block h fuel c s assign_type_ optional_assign_
                 _stmts par;
            if continue_ : bool then Ok (Skip _stmts _stmt_parents)
            else Ok (Go _stmts _stmt_parents s optional_assign_)
  end.
Proof.
  intros Hs Hl Hle. unfold visit_guards. rewrite Hs. simpl. rewrite Hl.
  unfold pand, py_gt. simpl.
  rewrite (bool_decide_eq_false_2 (m < lc)%Z) by lia.
  by destruct (bool_decide (0 < m)%Z).
Qed.


(** X11: the filter invents no binding: a member of the result is one of
    the candidates, or the use node itself when this is a [Name] or a
    [Const]. *)
Theorem filter_stmts_members fuel self stmts frame_ offset r x :
  mixin_keeps h ->
  _filter_stmts h fuel self stmts frame_ offset = Ok r ->
  x ∈ r ->
  x ∈ stmts \/
  (x = self /\ isinstance h self Const || isinstance h self Name = true).
Proof.
  intros Hmixin Hr Hx. unfold _filter_stmts in Hr.
  destruct (effective_frame h self offset) as [myframe| |]; simpl in Hr;
    try done.
  destruct (_ || _); [injection Hr as <-; by left|].
  destruct (statement h self) as [mystmt| |]; simpl in Hr; try done.
  destruct (scan_loop h fuel self mystmt _ stmts [] []) as [st| |] eqn:Hscan;
    simpl in Hr; try done.
  injection Hr as <-.
  pose (Q := fun x => x ∈ stmts \/
               (x = self /\
                isinstance h self Const || isinstance h self Name = true)).
  assert (Forall Q (scanned st)) as HQ.
  { eapply (scan_loop_invariant h Q); [done | | | exact Hscan | constructor].
    - intros E. by right.
    - intros c Hc _. by left. }
  eapply Forall_forall in HQ; [|exact Hx]. exact HQ.
Qed.

(** X12: inside a loop the loop variable hides the earlier bindings: a
    candidate whose assignment node has [optional_assign] and is a parent
    of the use node replaces all that was accumulated, and the scan goes on
    from this candidate alone. *)
Theorem filter_stmts_loop_target fuel self frame_ offset mystmt
    pre c post acc par s lc at_ acc1 :
  effective_frame h self offset = Ok frame_ -> self <> frame_ ->
  statement h self = Ok mystmt ->
  scan_loop h fuel self mystmt (reference_line h frame_ frame_ mystmt offset)
    pre [] [] = Ok (Running acc par) ->
  statement h c = Ok s -> fromlineno h s = Some lc ->
  (lc <= reference_line h frame_ frame_ mystmt offset)%Z ->
  assign_type h c = Some at_ ->
  has_base h c self = false ->
  _get_filtered_stmts h at_ self c acc mystmt = Ok (acc1, false) ->
  get_optional_assign h at_ = true ->
  parent_of h at_ self = true ->
  scan_loop h fuel self mystmt (reference_line h frame_ frame_ mystmt offset)
    (pre ++ c :: post) [] []
  = scan_loop h fuel self mystmt
      (reference_line h frame_ frame_ mystmt offset)
      post [c] [parent (obj h s)] /\
  _filter_stmts h fuel self (pre ++ [c]) frame_ offset = Ok [c].
Proof.
  intros Hf Hne Hs Hpre Hsc Hlc Hle Hat Hb Hhook Hopt Hpar.
  set (m := reference_line h frame_ frame_ mystmt offset) in *.
  assert (visit h fuel self mystmt m c acc par
          = Ok (Running [c] [parent (obj h s)])) as Hv.
  { unfold visit.
    rewrite (visit_guards_line_ok _ _ _ _ _ _ _ _ _ Hsc Hlc Hle), Hat, Hb.
    rewrite Hhook. simpl. by rewrite Hopt, Hpar. }
  split.
  - rewrite scan_loop_app, Hpre. simpl. by rewrite Hv.
  - rewrite (filter_stmts_scan _ _ _ _ _ _ _ Hf Hne Hs). fold m.
    rewrite scan_loop_app, Hpre. simpl. by rewrite Hv.
Qed.

(** X13: a plain assignment in the block of the use statement hides the
    earlier bindings: when the round of an [AssignName] candidate without
    [optional_assign], whose statement has the parent of the use statement,
    gets to the tests on the class and the candidate is not exclusive with
    the use node, the two lists hold this candidate alone afterwards. *)
Theorem filter_stmts_sibling_assign fuel self frame_ offset mystmt
    pre c post acc par acc' par' s :
  effective_frame h self offset = Ok frame_ -> self <> frame_ ->
  statement h self = Ok mystmt ->
  scan_loop h fuel self mystmt (reference_line h frame_ frame_ mystmt offset)
    pre [] [] = Ok (Running acc par) ->
  visit_guards h fuel self mystmt
    (reference_line h frame_ frame_ mystmt offset) c acc par
    = Ok (Go acc' par' s false) ->
  isinstance h c AssignName = true ->
  parent (obj h s) = parent (obj h mystmt) ->
  are_exclusive h fuel self c None = Ok false ->
  scan_loop h fuel self mystmt (reference_line h frame_ frame_ mystmt offset)
    (pre ++ c :: post) [] []
  = scan_loop h fuel self mystmt
      (reference_line h frame_ frame_ mystmt offset)
      post [c] [parent (obj h s)] /\
  _filter_stmts h fuel self (pre ++ [c]) frame_ offset = Ok [c].
Proof.
  intros Hf Hne Hs Hpre Hg Hc Hp Hex.
  set (m := reference_line h frame_ frame_ mystmt offset) in *.
  assert (visit h fuel self mystmt m c acc par
          = Ok (Running [c] [parent (obj h s)])) as Hv.
  { unfold visit. rewrite Hg. simpl. unfold visit_bind.
    rewrite (isinstance_other h _ _ DelName Hc) by done.
    rewrite Hc, Hp. simpl. rewrite bool_decide_eq_true_2 by done.
    rewrite Hex. done. }
  split.
  - rewrite scan_loop_app, Hpre. simpl. by rewrite Hv.
  - rewrite (filter_stmts_scan _ _ _ _ _ _ _ Hf Hne Hs). fold m.
    rewrite scan_loop_app, Hpre. simpl. by rewrite Hv.
Qed.

Lemma hook_stable at_ self c acc mystmt acc1 :
  mixin_stable h ->
  _get_filtered_stmts h at_ self c acc mystmt = Ok (acc1, false) ->
  acc1 = acc.
Proof.
  intros Hst. unfold _get_filtered_stmts, Comprehension_get_filtered_stmts.
  destruct (isinstance h at_ Comprehension); [|by apply Hst].
  case_bool_decide.
  - destruct (_ || _); by intros [= <-].
  - destruct (statement h at_) as [s| |]; simpl; try done.
    case_bool_decide; by intros [= <-].
Qed.

Lemma same_block_aligned fuel c stmt at_ opt acc par acc' par' cont :
  aligned h acc par ->
  same_block h fuel c stmt at_ opt acc par = Ok (acc', par', cont) ->
  aligned h acc' par'.
Proof.
  unfold same_block. intros Hal H.
  destruct (index par (parent (obj h stmt))) as [pindex|];
    [|by inversion H; subst].
  destruct (item acc pindex) as [earlier| |]; simpl in H; try done.
  destruct (assign_type h earlier) as [at1|]; [|done].
  destruct (parent_of h at1 at_); [by inversion H; subst|].
  unfold por in H. simpl in H.
  destruct opt; [by inversion H; subst|].
  destruct (are_exclusive h fuel earlier c None) as [[]| |]; simpl in H;
    inversion H; subst; [done|].
  by apply Forall2_delete.
Qed.

Lemma visit_aligned fuel self mystmt m c acc par acc' par' :
  mixin_stable h -> aligned h acc par ->
  visit h fuel self mystmt m c acc par = Ok (Running acc' par') ->
  aligned h acc' par'.
Proof.
  intros Hst Hal H. unfold visit, visit_guards in H.
  destruct (statement h c) as [s| |] eqn:Hs; simpl in H; try done.
  destruct (pand _ _) as [[]| |]; simpl in H; try done.
  destruct (assign_type h c) as [at_|]; [|done].
  destruct (has_base h c self); [done|].
  destruct (_get_filtered_stmts h at_ self c acc mystmt)
    as [[acc1 dn]| |] eqn:Hhook; simpl in H; try done.
  destruct dn; [done|].
  apply (hook_stable _ _ _ _ _ _ Hst) in Hhook as ->.
  assert (aligned h [c] [parent (obj h s)]) as Hc.
  { constructor; [|constructor]. by exists s. }
  destruct (_ && _); [by inversion H; subst|].
  destruct (same_block h fuel c s at_ _ acc par)
    as [[[acc2 par2] cont]| |] eqn:Hblock; simpl in H; try done.
  pose proof (same_block_aligned _ _ _ _ _ _ _ _ _ _ Hal Hblock) as Hal2.
  destruct cont; [by inversion H; subst|].
  simpl in H. unfold visit_bind in H.
  destruct (isinstance h c DelName); [inversion H; subst; constructor|].
  destruct (_ && _ && _);
    destruct (are_exclusive h fuel self c None) as [[]| |]; simpl in H;
    inversion H; subst; try done; try constructor.
  by apply Forall2_app.
Qed.

Lemma index_lt {A} `{EqDecision A} (l : list A) (x : A) i :
  index l x = Some i -> i < length l.
Proof.
  revert i. induction l as [|y l IH]; intros i; simpl; [done|].
  case_bool_decide; [intros [= <-]; lia|].
  destruct (index l x) as [j|]; simpl; [|done].
  intros [= <-]. specialize (IH j eq_refl). lia.
Qed.

(** X14: the two lists of the scan stay in step: as long as the
    [_get_filtered_stmts] of the mixins leaves the list alone when it does
    not stop the scan, each entry of [_stmt_parents] is the parent of the
    statement of the entry of [_stmts] at the same position, so that an
    index found in [_stmt_parents] is an index of [_stmts]. *)
Theorem scan_loop_aligned fuel self mystmt m stmts acc par acc' par' :
  mixin_stable h -> aligned h acc par ->
  scan_loop h fuel self mystmt m stmts acc par = Ok (Running acc' par') ->
  aligned h acc' par' /\
  forall p i, index par' p = Some i -> is_Some (acc' !! i).
Proof.
  intros Hst Hal H.
  assert (aligned h acc' par') as Hal'.
  { revert acc par Hal H.
    induction stmts as [|c stmts IH]; intros acc par Hal H; simpl in H.
    - by inversion H; subst.
    - destruct (visit h fuel self mystmt m c acc par) as [[a p|a]| |] eqn:Hv;
        simpl in H; try done.
      apply (IH a p); [|done]. by eapply visit_aligned. }
  split; [done|]. intros p i Hi%index_lt.
  apply lookup_lt_is_Some. by rewrite (Forall2_length _ _ _ Hal').
Qed.

Lemma hook_order at_ self c acc mystmt acc1 dn pre :
  mixin_orderly h -> sublist acc pre ->
  _get_filtered_stmts h at_ self c acc mystmt = Ok (acc1, dn) ->
  (sublist acc1 pre /\ dn = false) \/
  (dn = true /\ (sublist acc1 (pre ++ [c]) \/ acc1 = [self])).
Proof.
  intros Hord Hsub.
  unfold _get_filtered_stmts, Comprehension_get_filtered_stmts.
  destruct (isinstance h at_ Comprehension).
  - case_bool_decide.
    + destruct (_ || _); intros [= <- <-]; auto.
    + destruct (statement h at_) as [s| |]; simpl; try done.
      case_bool_decide; intros [= <- <-]; auto.
      right. split; [done|]. left. by apply sublist_inserts_l.
  - intros H. destruct (Hord _ _ _ _ _ _ _ H) as [Hr | [-> ->]].
    + destruct dn; [|left; split; [by etrans|done]].
      right. split; [done|]. left. apply sublist_inserts_r. by etrans.
    + right. split; [done|]. left. by apply sublist_inserts_l.
Qed.

Lemma visit_order fuel self mystmt m c acc par st pre :
  mixin_orderly h -> sublist acc pre ->
  visit h fuel self mystmt m c acc par = Ok st ->
  match st with
  | Running a _ => sublist a (pre ++ [c])
  | Broken a => sublist a (pre ++ [c]) \/ a = [self]
  end.
Proof.
  intros Hord Hsub H. unfold visit, visit_guards in H.
  assert (sublist acc (pre ++ [c])) as Hsub' by by apply sublist_inserts_r.
  destruct (statement h c) as [s| |] eqn:Hs; simpl in H; try done.
  destruct (pand _ _) as [[]| |]; simpl in H; try done.
  { inversion H; subst. by left. }
  destruct (assign_type h c) as [at_|]; [|done].
  destruct (has_base h c self); [inversion H; subst; by left|].
  destruct (_get_filtered_stmts h at_ self c acc mystmt)
    as [[acc1 dn]| |] eqn:Hhook; simpl in H; try done.
  destruct (hook_order _ _ _ _ _ _ _ _ Hord Hsub Hhook)
    as [[Hsub1 ->] | [-> Hsub1]]; [|by inversion H; subst].
  destruct (_ && _).
  { inversion H; subst. by apply sublist_inserts_l. }
  destruct (same_block h fuel c s at_ _ acc1 par)
    as [[[acc2 par2] cont]| |] eqn:Hblock; simpl in H; try done.
  assert (sublist acc2 pre) as Hsub2.
  { unfold same_block in Hblock.
    destruct (index par (parent (obj h s))) as [pindex|];
      [|by inversion Hblock; subst].
    destruct (item acc1 pindex) as [earlier| |]; simpl in Hblock; try done.
    destruct (assign_type h earlier) as [at1|]; [|done].
    destruct (parent_of h at1 at_); [by inversion Hblock; subst|].
    unfold por in Hblock. simpl in Hblock.
    destruct (get_optional_assign h at_); [by inversion Hblock; subst|].
    destruct (are_exclusive h fuel earlier c None) as [[]| |];
      simpl in Hblock; inversion Hblock; subst; [done|].
    etrans; [apply sublist_delete|done]. }
  destruct cont.
  { inversion H; subst. by apply sublist_inserts_r. }
  simpl in H. unfold visit_bind in H.
  destruct (isinstance h c DelName).
  { inversion H; subst. apply sublist_nil_l. }
  destruct (_ && _ && _);
    destruct (are_exclusive h fuel self c None) as [[]| |]; simpl in H;
    inversion H; subst.
  - apply sublist_nil_l.
  - by apply sublist_inserts_l.
  - by apply sublist_inserts_r.
  - by apply sublist_app.
Qed.

Lemma scan_loop_order fuel self mystmt m stmts acc par st pre :
  mixin_orderly h -> sublist acc pre ->
  scan_loop h fuel self mystmt m stmts acc par = Ok st ->
  sublist (scanned st) (pre ++ stmts) \/ scanned st = [self].
Proof.
  intros Hord. revert acc par pre.
  induction stmts as [|c stmts IH]; intros acc par pre Hsub H; simpl in H.
  - inversion H; subst. left. by rewrite app_nil_r.
  - destruct (visit h fuel self mystmt m c acc par) as [st1| |] eqn:Hv;
      simpl in H; try done.
    pose proof (visit_order _ _ _ _ _ _ _ _ _ Hord Hsub Hv) as H1.
    destruct st1 as [a p|a].
    + rewrite (cons_middle c pre stmts), app_assoc. by eapply IH.
    + inversion H; subst. simpl. destruct H1 as [H1|H1]; [|by right].
      left. rewrite (cons_middle c pre stmts), app_assoc.
      by apply sublist_inserts_r.
Qed.

(** X15: the result keeps the order of the candidates: as long as the
    [_get_filtered_stmts] of the mixins returns part of the list it is
    given or stops the scan with the candidate alone, the result is made of
    candidates in the order they have in the list, or it is the use node
    alone. *)
Theorem filter_stmts_order fuel self stmts frame_ offset r :
  mixin_orderly h ->
  _filter_stmts h fuel self stmts frame_ offset = Ok r ->
  sublist r stmts \/ r = [self].
Proof.
  intros Hord Hr. unfold _filter_stmts in Hr.
  destruct (effective_frame h self offset) as [myframe| |]; simpl in Hr;
    try done.
  destruct (_ || _); [injection Hr as <-; by left|].
  destruct (statement h self) as [mystmt| |]; simpl in Hr; try done.
  destruct (scan_loop h fuel self mystmt _ stmts [] []) as [st| |] eqn:Hscan;
    simpl in Hr; try done.
  injection Hr as <-.
  by apply (scan_loop_order _ _ _ _ _ _ _ _ [] Hord (sublist_nil_l _) Hscan).
Qed.

End FilterStmtsMore.

(** * Further properties of [unpack_infer] and [Dict.getitem] *)

Section UnpackInferMore.
Variable h : heap.
Variable generator_stop : bool.

(** X16: a [List] or [Tuple] node is not inferred but flattened:
    [unpack_infer] yields what the unpacking of its elements yields, in
    order (nothing for an empty one, and nothing for an element whose
    unpacking yields nothing and ends), up to the first element whose
    unpacking an exception leaves. *)
Theorem unpack_infer_literal fuel stmt elts :
  isinstance h stmt List || isinstance h stmt Tuple = true ->
  getattr (obj h stmt) "elts" = FSeq elts ->
  (forall results,
     Forall2 (fun n r => unpack_infer h generator_stop fuel n = (r, Done))
       elts results ->
     unpack_infer h generator_stop (S fuel) stmt = (concat results, Done)) /\
  (forall elts1 n elts2 results r e',
     elts = elts1 ++ n :: elts2 ->
     Forall2 (fun n r => unpack_infer h generator_stop fuel n = (r, Done))
       elts1 results ->
     unpack_infer h generator_stop fuel n = (r, e') -> e' <> Done ->
     unpack_infer h generator_stop (S fuel) stmt = (concat results ++ r, e')).
Proof.
  intros Hc Helts. rewrite unpack_infer_S, Hc, Helts. split.
  - intros results Hall. by apply yield_from_each_all.
  - intros elts1 n elts2 results r e' -> Hall Hn He.
    by apply (yield_from_each_stop _ elts1 n).
Qed.

Lemma yield_from_each_Forall {A B} (P : B -> Prop) (k : A -> gen B) xs e r e' :
  (forall x ys e1, k x = (ys, e1) -> Forall P ys) ->
  yield_from_each xs e k = (r, e') -> Forall P r.
Proof.
  intros Hk. revert r e'. induction xs as [|x xs IH]; intros r e'; simpl.
  - by intros [= <- <-].
  - destruct (k x) as [ys e1] eqn:Hx. pose proof (Hk _ _ _ Hx) as Hys.
    destruct e1; try (by intros [= <- <-]).
    destruct (yield_from_each xs e k) as [zs e2].
    intros [= <- <-]. apply Forall_app. split; [done|]. by eapply IH.
Qed.

(** X17: [unpack_infer] yields terminal values only: each value it yields
    is the sentinel, or a node that is no [List] and no [Tuple] and whose
    inference gives the node itself first. *)
Theorem unpack_infer_terminal fuel stmt vs e :
  unpack_infer h generator_stop fuel stmt = (vs, e) -> Forall (terminal h) vs.
Proof.
  revert stmt vs e. induction fuel as [|fuel IH]; intros stmt vs e.
  { by intros [= <- <-]. }
  rewrite unpack_infer_S.
  destruct (isinstance h stmt List || isinstance h stmt Tuple) eqn:Hc.
  - destruct (getattr (obj h stmt) "elts"); try (by intros [= <- <-]).
    apply yield_from_each_Forall. intros x ys e1. apply IH.
  - destruct (infer h stmt) as [[|first rest] e0] eqn:Hinf;
      unfold next; cbv beta iota.
    { destruct e0; by intros [= <- _]. }
    case_bool_decide as Hfirst.
    + intros [= <- <-]. constructor; [|done]. right. exists stmt.
      apply orb_false_iff in Hc as [? ?]. subst first. eauto 10.
    + apply yield_from_each_Forall. intros [|n] ys e1.
      * intros [= <- <-]. constructor; [by left|done].
      * apply IH.
Qed.

Lemma yield_from_each_ending {A B} (P : ending -> Prop) (k : A -> gen B)
    xs e r e' :
  P e -> (forall x ys e1, k x = (ys, e1) -> P e1) ->
  yield_from_each xs e k = (r, e') -> P e'.
Proof.
  intros He Hk. revert r e'. induction xs as [|x xs IH]; intros r e'; simpl.
  - by intros [= _ <-].
  - destruct (k x) as [ys e1] eqn:Hx. pose proof (Hk _ _ _ Hx) as He1.
    destruct e1; try (by intros [= _ <-]).
    destruct (yield_from_each xs e k) as [zs e2].
    intros [= _ <-]. by eapply IH.
Qed.

Lemma exhausted_not_stop e : exhausted e <> Raised StopIteration.
Proof. by destruct e as [|[]|]. Qed.

(** X30: the [StopIteration] of the [next] in [unpack_infer] does not
    leave it as such.  For a node that is no [List] and no [Tuple] and
    whose inference gives no value, [unpack_infer] yields nothing and ends
    as a [return] does, so that a loop over it goes on, or, where PEP 479
    is in force, a [RuntimeError] leaves it; and however [unpack_infer]
    ends, no [StopIteration] leaves it. *)
Theorem unpack_infer_stop_iteration fuel stmt :
  (isinstance h stmt List = false -> isinstance h stmt Tuple = false ->
   forall e0, infer h stmt = ([], e0) -> exhausted e0 = Done ->
     unpack_infer h generator_stop (S fuel) stmt
     = ([], if generator_stop then Raised RuntimeError else Done)) /\
  (forall vs e,
     unpack_infer h generator_stop fuel stmt = (vs, e) ->
     e <> Raised StopIteration).
Proof.
  split.
  - intros HL HT e0 Hinf He0. rewrite unpack_infer_S, HL, HT, Hinf.
    by destruct e0 as [|[]|].
  - revert stmt. induction fuel as [|fuel' IH]; intros stmt vs e.
    { by intros [= _ <-]. }
    rewrite unpack_infer_S.
    destruct (isinstance h stmt List || isinstance h stmt Tuple).
    + destruct (getattr (obj h stmt) "elts"); try (by intros [= _ <-]).
      intros Hy.
      eapply (yield_from_each_ending (fun e => e <> Raised StopIteration));
        [| |exact Hy]; [done|].
      intros x ys e1. apply IH.
    + destruct (infer h stmt) as [[|first rest] e0];
        unfold next; cbv beta iota.
      { destruct e0 as [|x|]; intros [= _ <-];
          first [ done | by destruct generator_stop
                | by destruct x, generator_stop ]. }
      case_bool_decide; [by intros [= _ <-]|].
      intros Hy.
      eapply (yield_from_each_ending (fun e => e <> Raised StopIteration));
        [| |exact Hy]; [apply exhausted_not_stop|].
      intros [|n] ys e1; [by intros [= _ <-]|]. apply IH.
Qed.

(** X19: what [Dict.getitem] returns is the value of an item of the
    dictionary: the first item whose key is inferred to a constant equal to
    the lookup key, all the items before it having been passed over. *)
Theorem dict_getitem_found self items lookup_key v :
  getattr (obj h self) "items" = FPairs items ->
  Dict_getitem h self lookup_key = Ok v ->
  exists pre key post,
    items = pre ++ (key, v) :: post /\
    Forall (passed_over h lookup_key) pre /\
    yields_const h key lookup_key.
Proof.
  intros Hitems. unfold Dict_getitem. rewrite Hitems. clear Hitems.
  induction items as [|[key value_] items IH]; simpl; [done|].
  destruct (infer h key) as [vals e] eqn:E.
  destruct (key_matches h vals lookup_key) eqn:Hm.
  - intros [= ->]. exists [], key, items. split; [done|]. split; [done|].
    apply key_matches_yields. by rewrite E.
  - destruct (exhausted e) eqn:He; try done.
    intros (pre & k & post & -> & Hpre & Hk)%IH.
    exists ((key, value_) :: pre), k, post. split; [done|]. split; [|done].
    constructor; [|done]. unfold passed_over. cbn [fst snd].
    rewrite <- key_matches_yields, E. cbn [fst snd]. by rewrite Hm.
Qed.

End UnpackInferMore.

(** * Properties of the [Arguments] methods *)

Section ArgumentsProperties.
Variable h : heap.

Lemma find_arg_flat_some argname args_ i0 i arg :
  _find_arg_flat h argname args_ i0 = Ok (Some (i, arg)) ->
  exists k, i = i0 + k /\ args_ !! k = Some arg /\
    plain_named h argname arg /\
    forall j a, j < k -> args_ !! j = Some a -> ~ plain_named h argname a.
Proof.
  revert i0. induction args_ as [|x args_ IH]; intros i0; simpl; [done|].
  destruct (isinstance h x Tuple) eqn:HT.
  - intros (k & -> & Hk & Hp & Hbefore)%IH. exists (S k).
    split; [lia|]. split; [done|]. split; [done|].
    intros [|j] a Hj; simpl.
    + intros [= <-] [HT' _]. congruence.
    + apply Hbefore. lia.
  - destruct (name (obj h x)) as [nm|] eqn:Hnm; [|done].
    destruct (String.eqb_spec nm argname) as [->|Hne].
    + intros [= <- <-]. exists 0. split; [lia|]. split; [done|].
      split; [done|]. intros j a Hj. lia.
    + intros (k & -> & Hk & Hp & Hbefore)%IH. exists (S k).
      split; [lia|]. split; [done|]. split; [done|].
      intros [|j] a Hj; simpl.
      * intros [= <-] [_ Hn]. congruence.
      * apply Hbefore. lia.
Qed.

Lemma find_arg_flat_none argname args_ i0 :
  _find_arg_flat h argname args_ i0 = Ok None ->
  forall a, a ∈ args_ -> ~ plain_named h argname a.
Proof.
  revert i0. induction args_ as [|x args_ IH]; intros i0; simpl.
  - intros _ a Ha. by apply elem_of_nil in Ha.
  - destruct (isinstance h x Tuple) eqn:HT.
    + intros H a [->|Ha]%elem_of_cons; [|by eapply IH].
      intros [HT' _]. congruence.
    + destruct (name (obj h x)) as [nm|] eqn:Hnm; [|done].
      destruct (String.eqb_spec nm argname) as [->|Hne]; [done|].
      intros H a [->|Ha]%elem_of_cons; [|by eapply IH].
      intros [_ Hn]. congruence.
Qed.

(** X20: [_find_arg] without [rec] finds the first plain argument that has
    the name: the index it returns is the position of the argument it
    returns, this argument is no [Tuple] and has the name, and no plain
    argument before it has the name; it returns [(None, None)] only when no
    plain argument has the name. *)
Theorem find_arg_first argname args_ :
  (forall i arg,
     _find_arg h argname args_ false = Ok (Some (i, arg)) ->
     args_ !! i = Some arg /\ plain_named h argname arg /\
     forall j a, j < i -> args_ !! j = Some a -> ~ plain_named h argname a) /\
  (_find_arg h argname args_ false = Ok None ->
   forall a, a ∈ args_ -> ~ plain_named h argname a).
Proof.
  unfold _find_arg. split.
  - intros i arg (k & -> & ? & ? & ?)%find_arg_flat_some. done.
  - apply find_arg_flat_none.
Qed.

(** X21: the defaults belong to the last arguments: with no more defaults
    than arguments, an argument found at position [i] of [args] has the
    default at position [i - (len(args) - len(defaults))] of [defaults] when
    this is not negative, and the subscript is always in range; an argument
    before that, which is no keyword-only argument, has no default. *)
Theorem default_value_positional self argname args_ i arg :
  args self = Some args_ ->
  length (defaults self) <= length args_ ->
  _find_arg h argname args_ false = Ok (Some (i, arg)) ->
  (length args_ - length (defaults self) <= i ->
   exists d,
     defaults self !! (i - (length args_ - length (defaults self))) = Some d /\
     default_value h self argname = Ok (Default d)) /\
  (i < length args_ - length (defaults self) ->
   _find_arg h argname (kwonlyargs self) false = Ok None ->
   default_value h self argname = Ok NoDefault).
Proof.
  intros Hargs Hlen Hfound.
  assert (i < length args_) as Hi.
  { pose proof Hfound as Hflat. unfold _find_arg in Hflat.
    apply find_arg_flat_some in Hflat as (k & -> & Hk & _).
    by apply lookup_lt_Some in Hk. }
  unfold default_value. rewrite Hargs, Hfound. simpl. split.
  - intros Hle. rewrite bool_decide_eq_true_2 by lia.
    replace (Z.to_nat (Z.of_nat i
               - (Z.of_nat (length args_) - Z.of_nat (length (defaults self)))))
      with (i - (length args_ - length (defaults self))) by lia.
    destruct (lookup_lt_is_Some_2 (defaults self)
                (i - (length args_ - length (defaults self)))) as [d Hd];
      [lia|].
    exists d. split; [done|]. unfold item. by rewrite Hd.
  - intros Hlt Hkw. rewrite bool_decide_eq_false_2 by lia. simpl.
    by rewrite Hkw.
Qed.

Lemma find_arg_flat_total argname args_ i0 :
  Forall (nameable h) args_ ->
  exists r, _find_arg_flat h argname args_ i0 = Ok r /\
    forall i arg, r = Some (i, arg) -> i < i0 + length args_.
Proof.
  intros Hall. revert i0. induction Hall as [|x args_ Hx _ IH]; intros i0.
  { exists None. done. }
  simpl. destruct (isinstance h x Tuple) eqn:HT.
  - destruct (IH (S i0)) as (r & -> & Hr). exists r. split; [done|].
    intros i arg Hi. specialize (Hr i arg Hi). lia.
  - destruct Hx as [?|[nm Hnm]]; [congruence|]. rewrite Hnm.
    destruct (String.eqb nm argname).
    + eexists. split; [done|]. intros i arg [= <- <-]. lia.
    + destruct (IH (S i0)) as (r & -> & Hr). exists r. split; [done|].
      intros i arg Hi. specialize (Hr i arg Hi). lia.
Qed.

(** X22: [default_value] comes to a default or to [NoDefault] and raises
    nothing else, as long as [args] is a list, the plain arguments have a
    name and there is an entry of [kw_defaults] for each keyword-only
    argument. *)
Theorem default_value_returns self argname args_ :
  args self = Some args_ ->
  Forall (nameable h) args_ -> Forall (nameable h) (kwonlyargs self) ->
  length (kw_defaults self) = length (kwonlyargs self) ->
  exists r, default_value h self argname = Ok r.
Proof.
  intros Hargs Hn Hkn Hkw. unfold default_value, _find_arg. rewrite Hargs.
  destruct (find_arg_flat_total argname args_ 0 Hn) as (r & -> & Hr).
  destruct (find_arg_flat_total argname (kwonlyargs self) 0 Hkn)
    as (rk & Hrk & Hrk').
  assert (exists r', (rk_ ← Ok rk;
            match rk_ with
            | Some (i, _) =>
                kd ← item (kw_defaults self) i;
                match kd with
                | Some d => Ok (Default d)
                | None => Ok NoDefault
                end
            | None => Ok NoDefault
            end) = Ok r') as [r' Hr'].
  { simpl. destruct rk as [[i a]|]; [|eauto].
    specialize (Hrk' i a eq_refl).
    destruct (lookup_lt_is_Some_2 (kw_defaults self) i) as [kd Hkd]; [lia|].
    unfold item. rewrite Hkd. simpl. destruct kd; eauto. }
  simpl. destruct r as [[i a]|]; simpl.
  - specialize (Hr i a eq_refl). case_bool_decide as Hidx; simpl.
    + destruct (lookup_lt_is_Some_2 (defaults self)
          (Z.to_nat (Z.of_nat i - (Z.of_nat (length args_)
                       - Z.of_nat (length (defaults self)))))) as [d Hd];
        [lia|].
      unfold item. rewrite Hd. simpl. eauto.
    + rewrite Hrk. eauto.
  - rewrite Hrk. eauto.
Qed.

Lemma find_arg_rec_some argname args_ i0 r :
  _find_arg_rec h argname args_ i0 = Ok (Some r) ->
  plain_named h argname r.2 /\
  (r.2 ∈ args_ \/
   exists t elts, t ∈ args_ /\ isinstance h t Tuple = true /\
     getattr (obj h t) "elts" = FSeq elts /\ r.2 ∈ elts).
Proof.
  revert i0. induction args_ as [|x args_ IH]; intros i0; simpl; [done|].
  destruct (isinstance h x Tuple) eqn:HT.
  - destruct (getattr (obj h x) "elts") as [| |elts|] eqn:He; try done.
    destruct (_find_arg_flat h argname elts 0) as [[[i a]|]| |] eqn:Hf;
      simpl; try done.
    + intros [= <-]. apply find_arg_flat_some in Hf
        as (k & _ & Hk & Hp & _). split; [done|]. right.
      exists x, elts. split; [left|]. split; [done|]. split; [done|].
      by eapply list_elem_of_lookup_2.
    + intros [Hp Hin]%IH. split; [done|].
      destruct Hin as [Hin | (t & el & Ht & ?)]; [left; by right|].
      right. exists t, el. split; [by right|done].
  - destruct (name (obj h x)) as [nm|] eqn:Hnm; [|done].
    destruct (String.eqb_spec nm argname) as [->|Hne].
    + intros [= <-]. split; [done|]. left. left.
    + intros [Hp Hin]%IH. split; [done|].
      destruct Hin as [Hin | (t & el & Ht & ?)]; [left; by right|].
      right. exists t, el. split; [by right|done].
Qed.

(** X23: [is_argument] says true for the name of [vararg] and for the
    name of [kwarg]; when it says true for another name, a plain argument
    with this name is in [args], or among the elements of a [Tuple] of
    [args]: keyword-only arguments are not looked at. *)
Theorem is_argument_true self nm :
  (Some nm = vararg self \/ Some nm = kwarg self ->
   is_argument h self nm = Ok true) /\
  (is_argument h self nm = Ok true ->
   Some nm = vararg self \/ Some nm = kwarg self \/
   exists args_ a,
     args self = Some args_ /\ plain_named h nm a /\
     (a ∈ args_ \/
      exists t elts, t ∈ args_ /\ isinstance h t Tuple = true /\
        getattr (obj h t) "elts" = FSeq elts /\ a ∈ elts)).
Proof.
  unfold is_argument. split.
  - intros [Hv|Hk].
    + by rewrite bool_decide_eq_true_2.
    + case_bool_decide; [done|]. by rewrite bool_decide_eq_true_2.
  - case_bool_decide; [by left|]. case_bool_decide; [by right; left|].
    unfold find_argname, _find_arg.
    destruct (args self) as [[|x args_]|] eqn:Hargs;
      [simpl; intros [= Hb]; apply bool_decide_eq_true in Hb; by destruct Hb
      | | simpl; intros [= Hb]; apply bool_decide_eq_true in Hb;
          by destruct Hb].
    destruct (_find_arg_rec h nm (x :: args_) 0) as [[r|]| |] eqn:Hf;
      [| simpl; intros [= Hb]; apply bool_decide_eq_true in Hb;
         by destruct Hb | done..].
    intros _. right. right. apply find_arg_rec_some in Hf as [Hp Hin].
    by exists (x :: args_), r.2.
Qed.

End ArgumentsProperties.

(** * Properties of the subscripts: [getitem] of the containers, the
    children of [Dict] and [Compare] *)

Section Subscripts.
Variable h : heap.

Lemma omap_seq_lookup {A} (g : nat -> option A) s m :
  (forall k, s <= k < s + m -> is_Some (g k)) ->
  length (omap g (seq s m)) = m /\
  forall j, j < m -> omap g (seq s m) !! j = g (s + j).
Proof.
  revert s. induction m as [|m IH]; intros s Hg; simpl.
  { split; [done|]. intros j Hj. lia. }
  destruct (Hg s) as [x Hx]; [lia|]. rewrite Hx.
  destruct (IH (S s)) as [Hlen Hlook]; [intros k Hk; apply Hg; lia|].
  split; [simpl; f_equal; exact Hlen|].
  intros [|j] Hj.
  - simpl. by rewrite Nat.add_0_r.
  - change (omap g (seq (S s) m) !! j = g (s + S j)).
    rewrite Hlook by lia. f_equal. lia.
Qed.

Lemma omap_seq_take_drop {A} (l : list A) (g : nat -> option A) a s m :
  (forall k, k < m -> g (s + k) = l !! (a + k)) ->
  a + m <= length l ->
  omap g (seq s m) = take m (drop a l).
Proof.
  revert a s. induction m as [|m IH]; intros a s Hg Hlen; simpl; [done|].
  destruct (lookup_lt_is_Some_2 l a) as [x Hx]; [lia|].
  pose proof (Hg 0) as H0. rewrite !Nat.add_0_r in H0.
  rewrite H0, Hx by lia.
  rewrite (drop_S _ _ _ Hx). simpl. f_equal.
  apply IH; [|lia]. intros k Hk.
  replace (S s + k) with (s + S k) by lia.
  replace (S a + k) with (a + S k) by lia. apply Hg. lia.
Qed.

Lemma list_getitem_nat {A} (l : list A) k x :
  l !! k = Some x ->
  list_getitem l (Z.of_nat k) = Ok x /\
  list_getitem l (Z.of_nat k - Z.of_nat (length l)) = Ok x.
Proof.
  intros Hk. pose proof (lookup_lt_Some _ _ _ Hk) as Hlt.
  unfold list_getitem, item. split.
  - rewrite bool_decide_eq_true_2 by lia. by rewrite Nat2Z.id, Hk.
  - rewrite bool_decide_eq_false_2 by lia.
    rewrite bool_decide_eq_true_2 by lia.
    replace (Z.to_nat (Z.of_nat (length l)
               + (Z.of_nat k - Z.of_nat (length l)))) with k by lia.
    by rewrite Hk.
Qed.

Lemma list_getitem_out {A} (l : list A) i :
  (i < - Z.of_nat (length l) \/ Z.of_nat (length l) <= i)%Z ->
  list_getitem l i = Raise (IndexError None).
Proof.
  intros Hi. unfold list_getitem.
  by rewrite !bool_decide_eq_false_2 by lia.
Qed.

Lemma list_getitem_last {A} (l : list A) :
  list_getitem l (-1) =
  match last l with
  | Some x => Ok x
  | None => Raise (IndexError None)
  end.
Proof.
  destruct (last l) as [x|] eqn:Hl.
  - rewrite last_lookup in Hl.
    pose proof (lookup_lt_Some _ _ _ Hl) as Hlt.
    destruct (list_getitem_nat l _ _ Hl) as [_ H2].
    rewrite <- H2. f_equal. lia.
  - apply last_None in Hl as ->. done.
Qed.

(** X24: an integer index into a [List] or [Tuple] node counts from the
    front when it is not negative and from the back when it is negative:
    the element at position [k] is returned for [k] and for [k - len]; any
    index below [-len] or from [len] on raises [IndexError], and
    [bool_value] is false exactly when index 0 does so. *)
Theorem container_getitem_index self elts :
  getattr (obj h self) "elts" = FSeq elts ->
  (forall k n, elts !! k = Some n ->
     container_getitem h self (IInt (Z.of_nat k)) = Ok (Element n) /\
     container_getitem h self
       (IInt (Z.of_nat k - Z.of_nat (length elts))) = Ok (Element n)) /\
  (forall i, (i < - Z.of_nat (length elts) \/ Z.of_nat (length elts) <= i)%Z ->
     container_getitem h self (IInt i) = Raise (IndexError None)) /\
  (container_bool_value h self = Ok false <->
   container_getitem h self (IInt 0) = Raise (IndexError None)).
Proof.
  intros Helts. unfold container_getitem, container_bool_value.
  rewrite Helts. simpl. split; [|split].
  - intros k n Hk. destruct (list_getitem_nat elts k n Hk) as [-> ->]. done.
  - intros i Hi. by rewrite (list_getitem_out elts i Hi).
  - destruct elts as [|x elts]; [done|].
    destruct (list_getitem_nat (x :: elts) 0 x eq_refl) as [H0 _].
    change (Z.of_nat 0) with 0%Z in H0. rewrite H0. done.
Qed.

Lemma slice_indices_unit n a b :
  a <= b -> b <= n ->
  slice_indices (Z.of_nat n) (Some (Z.of_nat a)) (Some (Z.of_nat b)) None
  = Ok (Z.of_nat a, Z.of_nat b, 1%Z).
Proof.
  intros Hab Hbn. unfold slice_indices, slice_adjust. simpl.
  repeat (case_bool_decide; try lia); repeat f_equal; lia.
Qed.

Lemma list_slice_unit {A} (l : list A) a b :
  a <= b -> b <= length l ->
  list_slice l (Some (Z.of_nat a)) (Some (Z.of_nat b)) None
  = Ok (take (b - a) (drop a l)).
Proof.
  intros Hab Hbn. unfold list_slice.
  rewrite (slice_indices_unit _ _ _ Hab Hbn). simpl. f_equal.
  assert (slice_length (Z.of_nat a) (Z.of_nat b) 1 = b - a) as ->.
  { unfold slice_length. rewrite bool_decide_eq_false_2 by lia.
    case_bool_decide; [|lia]. rewrite Z.div_1_r. lia. }
  apply omap_seq_take_drop; [|lia].
  intros k Hk. simpl. f_equal. lia.
Qed.

Lemma list_slice_all {A} (l : list A) : list_slice l None None None = Ok l.
Proof.
  unfold list_slice, slice_indices. simpl. f_equal.
  assert (slice_length 0 (Z.of_nat (length l)) 1 = length l) as ->.
  { unfold slice_length. rewrite bool_decide_eq_false_2 by lia.
    case_bool_decide; [|lia]. rewrite Z.div_1_r. lia. }
  rewrite (omap_seq_take_drop l _ 0 0 (length l)).
  - by rewrite drop_0, firstn_all.
  - intros k Hk. simpl. f_equal. lia.
  - lia.
Qed.

Lemma list_slice_ok {A} (l : list A) start stop step :
  step <> Some 0%Z ->
  exists r, list_slice l start stop step = Ok r /\ r ⊆ l.
Proof.
  intros Hstep. unfold list_slice, slice_indices.
  rewrite bool_decide_eq_false_2 by (destruct step; naive_solver).
  simpl. eexists. split; [done|].
  intros x (k & _ & Hk)%list_elem_of_omap.
  by eapply list_elem_of_lookup_2.
Qed.

(** X25: a slice of a [List] or [Tuple] node is a new container of the
    class of the node, with the parent of the node: a step of zero raises
    [ValueError], any other slice returns such a container made of elements
    of the node; [a:b] within the bounds holds the elements from position
    [a] up to position [b], and [:] holds them all. *)
Theorem container_getitem_slice self elts :
  getattr (obj h self) "elts" = FSeq elts ->
  (forall start stop,
     container_getitem h self (ISlice start stop (Some 0%Z))
     = Raise ValueError) /\
  (forall start stop step, step <> Some 0%Z ->
     exists new_elts,
       container_getitem h self (ISlice start stop step)
       = Ok (Container (cls (obj h self)) (parent (obj h self)) new_elts) /\
       new_elts ⊆ elts) /\
  (forall a b, a <= b -> b <= length elts ->
     container_getitem h self
       (ISlice (Some (Z.of_nat a)) (Some (Z.of_nat b)) None)
     = Ok (Container (cls (obj h self)) (parent (obj h self))
             (take (b - a) (drop a elts)))) /\
  container_getitem h self (ISlice None None None)
  = Ok (Container (cls (obj h self)) (parent (obj h self)) elts).
Proof.
  intros Helts. unfold container_getitem, _container_getitem.
  rewrite Helts. split; [|split; [|split]].
  - intros start stop. unfold list_slice, slice_indices. done.
  - intros start stop step Hstep.
    destruct (list_slice_ok elts start stop step Hstep) as (r & -> & Hr).
    by exists r.
  - intros a b Hab Hb. by rewrite (list_slice_unit elts a b Hab Hb).
  - by rewrite list_slice_all.
Qed.

Lemma last_flat_pairs (items : list (node * node)) :
  last (flat_map (fun kv => [kv.1; kv.2]) items) = snd <$> last items.
Proof.
  induction items as [|kv items IH]; [done|].
  simpl. destruct items as [|kv' items]; [done|].
  simpl in *. exact IH.
Qed.

(** X26: the children of a [Dict] are its keys and values, two for each
    item, and [last_child] is the last of them: the value of the last item,
    or [None] for an empty dictionary, which is when [bool_value] is
    false. *)
Theorem dict_children_last self items :
  getattr (obj h self) "items" = FPairs items ->
  exists children,
    Dict_get_children h self = Ok children /\
    length children = 2 * length items /\
    Dict_last_child h self = Ok (last children) /\
    (Dict_bool_value h self = Ok false <-> children = []).
Proof.
  intros Hitems.
  unfold Dict_get_children, Dict_last_child, Dict_bool_value, Dict_items.
  rewrite Hitems. simpl. eexists. split; [done|]. split; [|split].
  - clear Hitems. induction items as [|kv items IH]; simpl; [done|].
    rewrite IH. lia.
  - rewrite last_flat_pairs. by destruct (last items).
  - destruct items; simpl; [done|]. split; [by intros [= ?]|done].
Qed.

(** X27: [Dict.itered] returns every second item of the dictionary, as
    (key, value) pairs: the pair at position [k] of what it returns is the
    item at position [2 * k]. *)
Theorem dict_itered_even self items :
  getattr (obj h self) "items" = FPairs items ->
  exists pairs,
    Dict_itered h self = Ok pairs /\
    forall k, pairs !! k = items !! (2 * k).
Proof.
  intros Hitems. unfold Dict_itered, Dict_items. rewrite Hitems. simpl.
  unfold list_slice, slice_indices. simpl. eexists. split; [done|].
  set (n := length items).
  set (m := slice_length 0 (Z.of_nat n) 2).
  assert (forall k, k < m <-> 2 * k < n) as Hm.
  { intros k. unfold m, slice_length.
    rewrite bool_decide_eq_false_2 by lia.
    case_bool_decide; [|lia]. rewrite Z.sub_0_r.
    pose proof (Z.div_mod (Z.of_nat n - 1) 2 ltac:(lia)).
    pose proof (Z.mod_pos_bound (Z.of_nat n - 1) 2 ltac:(lia)). lia. }
  destruct (omap_seq_lookup
              (fun k => items !! Z.to_nat (0 + Z.of_nat k * 2)) 0 m)
    as [Hlen Hlook].
  { intros k Hk. apply lookup_lt_is_Some. fold n.
    assert (2 * k < n) by (apply Hm; lia). lia. }
  intros k. destruct (decide (k < m)) as [Hk|Hk].
  - rewrite Hlook by done. f_equal. lia.
  - rewrite lookup_ge_None_2 by lia. symmetry. apply lookup_ge_None_2.
    fold n. rewrite Hm in Hk. lia.
Qed.

(** X28: [Compare.last_child] is the last of the children when there is
    an operator: the comparator of the last one; with no operator it raises
    [IndexError], though [get_children] still yields [left]. *)
Theorem compare_last_child self :
  (Compare_ops self <> [] ->
   exists n, Compare_last_child self = Ok n /\
             last (Compare_get_children self) = Some n) /\
  (Compare_ops self = [] ->
   Compare_last_child self = Raise (IndexError None) /\
   Compare_get_children self = [Compare_left self]).
Proof.
  unfold Compare_last_child, Compare_get_children.
  rewrite list_getitem_last. split.
  - intros Hne. destruct (last (Compare_ops self)) as [op|] eqn:Hl.
    + exists op.2. split; [done|].
      apply last_Some in Hl as [ops' ->].
      rewrite map_app. simpl.
      change (Compare_left self :: map snd ops' ++ [op.2])
        with ((Compare_left self :: map snd ops') ++ [op.2]).
      apply last_snoc.
    + by apply last_None in Hl.
  - intros ->. done.
Qed.

End Subscripts.

(** * [ExceptHandler.catch] *)

Section Catch.
Variable h : heap.

Lemma catch_loop_values ns exs v :
  catch_loop h ns exs = Ok v -> v = Some true \/ v = None.
Proof.
  induction ns as [|n ns IH]; simpl.
  - intros [= <-]. by right.
  - destruct (name (obj h n)); [|done].
    case_bool_decide; [|done]. intros [= <-]. by left.
Qed.

(** X29: [catch] answers [True] or nothing, never [False]: for a handler
    as the builder makes it, it returns [True] when no names are asked for,
    when the handler has no type clause, or when a [Name] node of the type
    clause has one of the names asked for, and [None] otherwise. *)
Theorem catch_true_or_none c ex :
  handler_ok h c = true ->
  (catches h c ex -> catch h c ex = Ok (Some true)) /\
  (~ catches h c ex -> catch h c ex = Ok None).
Proof.
  intros Hok. destruct (catch_spec h c ex Hok) as (v & Hv & Hiff).
  assert (v = Some true \/ v = None) as Hcases.
  { revert Hv. unfold catch.
    destruct (isinstance h c ExceptHandler); [|done].
    destruct (getattr (obj h c) "type"), ex; try done;
      try (intros [= <-]; by left).
    apply catch_loop_values. }
  rewrite Hv. split.
  - intros Hc. apply Hiff in Hc.
    destruct Hcases as [-> | ->]; [done | discriminate Hc].
  - intros Hc. destruct Hcases as [-> | ->]; [|done].
    exfalso. apply Hc, Hiff. done.
Qed.

End Catch.

(** * Instances of the further properties *)

(** The functions of the two handlers of [tree_try]. *)
Lemma are_exclusive_two_handlers_witness :
  are_exclusive tree_try 10 5 7 (Some ["ValueError"]) = Ok true.
Proof.
  apply (are_exclusive_two_handlers tree_try 10 5 7 1 3 6
           (RSeq 1 "handlers") (RSeq 1 "handlers"));
    try reflexivity; [|lia].
  split; [|split].
  - apply (branch_up tree_try 5 3); [reflexivity|].
    apply branch_here. reflexivity.
  - apply (branch_up tree_try 7 6); [reflexivity|].
    apply branch_here. reflexivity.
  - left. lia.
Defined.

(** The function of the first handler and the one of [else]. *)
Lemma are_exclusive_handler_orelse_witness :
  are_exclusive tree_try 10 5 8 (Some ["ValueError"]) = Ok true /\
  are_exclusive tree_try 10 8 5 (Some ["ValueError"]) = Ok true.
Proof.
  apply (are_exclusive_handler_orelse tree_try 10 5 8 1 3 8
           (RSeq 1 "handlers") (RSeq 1 "orelse"));
    try reflexivity.
  split; [|split].
  - apply (branch_up tree_try 5 3); [reflexivity|].
    apply branch_here. reflexivity.
  - apply branch_here. reflexivity.
  - left. lia.
Defined.

(** The function of the [try] body and the one of [else]. *)
Lemma are_exclusive_try_no_handler_witness :
  are_exclusive tree_try 10 2 8 None = Ok false.
Proof.
  apply (are_exclusive_try_no_handler tree_try 10 2 8 1 2 8
           "body" (RSeq 1 "body") "orelse" (RSeq 1 "orelse"));
    try reflexivity; try discriminate.
  split; [|split].
  - apply branch_here. reflexivity.
  - apply branch_here. reflexivity.
  - left. lia.
Defined.

(** The two assignments of [tree_if] that are exclusive. *)
Lemma are_exclusive_true_only_witness :
  exists N ca cb,
    nearest_common_parent tree_if 4 12 N ca cb /\ ca <> cb /\
    ((isinstance tree_if N If = true /\ None = (None : option (list string)))
     \/ isinstance tree_if N TryExcept = true).
Proof.
  apply (are_exclusive_true_only tree_if 10 4 12 None); reflexivity.
Defined.

(** The targets of two assignments, and the assignment and the [elif] they
    are under. *)
Lemma are_exclusive_below_witness :
  are_exclusive tree_if 10 4 12 None = are_exclusive tree_if 10 3 9 None.
Proof.
  apply (are_exclusive_below tree_if 10 3 9 4 12 1 3 9 None);
    try reflexivity.
  - split; [|split].
    + apply branch_here. reflexivity.
    + apply branch_here. reflexivity.
    + left. lia.
  - lia.
  - apply (climbs_step tree_if 4 3); [reflexivity|]. apply climbs_refl.
  - apply (climbs_step tree_if 12 11); [reflexivity|].
    apply (climbs_step tree_if 11 9); [reflexivity|]. apply climbs_refl.
Defined.

(** The handler of [TypeError], asked for [TypeError]. *)
Lemma are_exclusive_names_reduce_witness :
  are_exclusive tree_try 10 2 5 None = Ok true /\
  forall names', ["TypeError"] ⊆ names' ->
    are_exclusive tree_try 10 2 5 (Some names') = Ok true.
Proof.
  apply (are_exclusive_names_reduce tree_try 10 2 5 ["TypeError"]);
    reflexivity.
Defined.

(** The [pass] that is in no field of its parent. *)
Lemma are_exclusive_raises_witness :
  are_exclusive tree_detached 10 3 4 None = Raise AstroidError /\
  (AstroidError = AstroidError \/ AstroidError = AttributeError).
Proof.
  split; [reflexivity|].
  apply (are_exclusive_raises tree_detached 10 3 4 None AstroidError);
    reflexivity.
Defined.

(** The function of the [try] body and the one of the first handler. *)
Lemma are_exclusive_returns_witness :
  exists r, are_exclusive tree_try 10 2 5 (Some ["KeyError"]) = Ok r.
Proof.
  apply (are_exclusive_returns tree_try 10 2 5 1 2 3
           "body" (RSeq 1 "body") "handlers" (RSeq 1 "handlers"));
    try reflexivity.
  - split; [|split].
    + apply branch_here. reflexivity.
    + apply (branch_up tree_try 5 3); [reflexivity|].
      apply branch_here. reflexivity.
    + left. lia.
  - discriminate.
Defined.

(** The function [f] of [tree_del], looked up from itself. *)
Lemma filter_stmts_from_frame_witness :
  _filter_stmts tree_del 20 14 [2; 5; 7; 12] 14 0 = Ok [2; 5; 7; 12].
Proof.
  apply (filter_stmts_from_frame tree_del 20 14 [2; 5; 7; 12] 0 0).
  reflexivity.
Defined.


Lemma tree_del_mixin_keeps : mixin_keeps tree_del.
Proof.
  intros at_ self node_ stmts mystmt r dn H x Hx. simpl in H.
  injection H as <- _. by left.
Qed.

Lemma tree_del_mixin_stable : mixin_stable tree_del.
Proof.
  intros at_ self node_ stmts mystmt r H. simpl in H. by injection H as <-.
Qed.

Lemma tree_del_mixin_orderly : mixin_orderly tree_del.
Proof.
  intros at_ self node_ stmts mystmt r dn H. simpl in H.
  injection H as <- _. by left.
Qed.

(** The use of [x] on line 4 of [tree_del]. *)
Lemma filter_stmts_members_witness :
  7 ∈ [2; 5; 7; 12] \/
  (7 = 10 /\ isinstance tree_del 10 Const || isinstance tree_del 10 Name = true).
Proof.
  apply (filter_stmts_members tree_del 20 10 [2; 5; 7; 12] 0 0 [7] 7).
  - exact tree_del_mixin_keeps.
  - reflexivity.
  - apply list_elem_of_singleton. reflexivity.
Defined.

(** The use of [x] in the body of the loop of [tree_loop], with the
    assignment of line 2 and the loop variable. *)
Lemma filter_stmts_loop_target_witness :
  scan_loop tree_loop 20 12 9 (reference_line tree_loop 0 0 9 0)
    ([2] ++ 5 :: []) [] []
  = scan_loop tree_loop 20 12 9 (reference_line tree_loop 0 0 9 0)
      [] [5] [parent (obj tree_loop 4)] /\
  _filter_stmts tree_loop 20 12 ([2] ++ [5]) 0 0 = Ok [5].
Proof.
  apply (filter_stmts_loop_target tree_loop 20 12 0 0 9 [2] 5 []
           [2] [Some 0] 4 3%Z 4 [2]);
    try reflexivity; [lia | vm_compute; discriminate].
Defined.

(** The use of [x] on line 4 of [tree_del], with the assignment of line 3
    after the deletion. *)
Lemma filter_stmts_sibling_assign_witness :
  scan_loop tree_del 20 10 9 (reference_line tree_del 0 0 9 0)
    ([2; 5] ++ 7 :: [12]) [] []
  = scan_loop tree_del 20 10 9 (reference_line tree_del 0 0 9 0)
      [12] [7] [parent (obj tree_del 6)] /\
  _filter_stmts tree_del 20 10 ([2; 5] ++ [7]) 0 0 = Ok [7].
Proof.
  apply (filter_stmts_sibling_assign tree_del 20 10 0 0 9 [2; 5] 7 [12]
           [] [] [] [] 6);
    try reflexivity; lia.
Defined.

(** The scan of the first candidate of [tree_del]. *)
Lemma scan_loop_aligned_witness :
  aligned tree_del [2] [Some 0] /\
  forall p i, index [Some 0] p = Some i -> is_Some ([2] !! i).
Proof.
  apply (scan_loop_aligned tree_del 20 10 9 (reference_line tree_del 0 0 9 0)
           [2] [] [] [2] [Some 0]).
  - exact tree_del_mixin_stable.
  - constructor.
  - reflexivity.
Defined.

Lemma filter_stmts_order_witness :
  sublist [7] [2; 5; 7; 12] \/ [7] = [10].
Proof.
  apply (filter_stmts_order tree_del 20 10 [2; 5; 7; 12] 0 0 [7]).
  - exact tree_del_mixin_orderly.
  - reflexivity.
Defined.

(** The list [[A, A]] of [tree_unpack]. *)
Lemma unpack_infer_literal_witness :
  unpack_infer tree_unpack false 3 5 = (concat [[YES]; [YES]], Done).
Proof.
  destruct (unpack_infer_literal tree_unpack false 2 5 [4; 4]) as [H _];
    [reflexivity | reflexivity |].
  apply H. repeat constructor.
Defined.

(** The constant 2 of [tree_unpack]. *)
Lemma unpack_infer_terminal_witness :
  Forall (terminal tree_unpack) [Obj 6].
Proof.
  apply (unpack_infer_terminal tree_unpack false 10 6 [Obj 6] Done).
  reflexivity.
Defined.

(** The node of [tree_silent] whose inference gives nothing. *)
Lemma unpack_infer_stop_iteration_witness :
  unpack_infer tree_silent false 3 1 = ([], Done) /\
  unpack_infer tree_silent true 3 1 = ([], Raised RuntimeError).
Proof.
  split.
  - destruct (unpack_infer_stop_iteration tree_silent false 2 1) as [H _].
    apply (H eq_refl eq_refl Done); reflexivity.
  - destruct (unpack_infer_stop_iteration tree_silent true 2 1) as [H _].
    apply (H eq_refl eq_refl Done); reflexivity.
Defined.

(** The key ["k"] of [{1: "a", "k": 2}]. *)
Lemma dict_getitem_found_witness :
  exists pre key post,
    [(1, 2); (3, 4)] = pre ++ (key, 4) :: post /\
    Forall (passed_over tree_dict (PyStr "k")) pre /\
    yields_const tree_dict key (PyStr "k").
Proof.
  apply (dict_getitem_found tree_dict 0 [(1, 2); (3, 4)] (PyStr "k") 4);
    reflexivity.
Defined.

(** The argument [b] of [f]: found at position 1, after [a]. *)
Lemma find_arg_first_witness :
  [0; 1; 2] !! 1 = Some 1 /\ plain_named tree_args "b" 1 /\
  forall j a, j < 1 -> [0; 1; 2] !! j = Some a -> ~ plain_named tree_args "b" a.
Proof.
  destruct (find_arg_first tree_args "b" [0; 1; 2]) as [H _].
  apply (H 1 1). reflexivity.
Defined.

(** The arguments [b] and [a] of [f]: [b] has the first default, [a] has
    none. *)
Lemma default_value_positional_witness :
  (exists d, defaults args_f !! (1 - (3 - 2)) = Some d /\
             default_value tree_args args_f "b" = Ok (Default d)) /\
  default_value tree_args args_f "a" = Ok NoDefault.
Proof.
  split.
  - destruct (default_value_positional tree_args args_f "b" [0; 1; 2] 1 1)
      as [H _]; [reflexivity | simpl; lia | reflexivity |].
    apply H. simpl. lia.
  - destruct (default_value_positional tree_args args_f "a" [0; 1; 2] 0 0)
      as [_ H]; [reflexivity | simpl; lia | reflexivity |].
    apply H; [simpl; lia | reflexivity].
Defined.

(** A name that is no argument of [f]. *)
Lemma default_value_returns_witness :
  exists r, default_value tree_args args_f "z" = Ok r.
Proof.
  apply (default_value_returns tree_args args_f "z" [0; 1; 2]).
  - reflexivity.
  - repeat (apply Forall_cons; split; [right; by eexists|]).
    apply Forall_nil_2.
  - repeat (apply Forall_cons; split; [right; by eexists|]).
    apply Forall_nil_2.
  - reflexivity.
Defined.

(** The vararg [rest] of [f]. *)
Lemma is_argument_true_witness :
  is_argument tree_args args_f "rest" = Ok true.
Proof.
  destruct (is_argument_true tree_args args_f "rest") as [H _].
  apply H. left. reflexivity.
Defined.

(** The list [[1, 2, 3]] of [tree_args]: its last element. *)
Lemma container_getitem_index_witness :
  container_getitem tree_args 8 (IInt (Z.of_nat 2)) = Ok (Element 7) /\
  container_getitem tree_args 8
    (IInt (Z.of_nat 2 - Z.of_nat (length [3; 4; 7]))) = Ok (Element 7).
Proof.
  destruct (container_getitem_index tree_args 8 [3; 4; 7]) as [H _];
    [reflexivity|].
  apply (H 2 7). reflexivity.
Defined.

(** The slice [1:3] of the list [[1, 2, 3]]. *)
Lemma container_getitem_slice_witness :
  container_getitem tree_args 8
    (ISlice (Some (Z.of_nat 1)) (Some (Z.of_nat 3)) None)
  = Ok (Container (cls (obj tree_args 8)) (parent (obj tree_args 8))
          (take (3 - 1) (drop 1 [3; 4; 7]))).
Proof.
  destruct (container_getitem_slice tree_args 8 [3; 4; 7])
    as (_ & _ & H & _); [reflexivity|].
  apply (H 1 3); simpl; lia.
Defined.

(** The dictionary [{1: "a", "k": 2}]. *)
Lemma dict_children_last_witness :
  exists children,
    Dict_get_children tree_dict 0 = Ok children /\
    length children = 2 * length [(1, 2); (3, 4)] /\
    Dict_last_child tree_dict 0 = Ok (last children) /\
    (Dict_bool_value tree_dict 0 = Ok false <-> children = []).
Proof.
  apply (dict_children_last tree_dict 0 [(1, 2); (3, 4)]). reflexivity.
Defined.

Lemma dict_itered_even_witness :
  exists pairs,
    Dict_itered tree_dict 0 = Ok pairs /\
    forall k, pairs !! k = [(1, 2); (3, 4)] !! (2 * k).
Proof.
  apply (dict_itered_even tree_dict 0 [(1, 2); (3, 4)]). reflexivity.
Defined.

(** The comparison [a < b < c]. *)
Lemma compare_last_child_witness :
  exists n, Compare_last_child compare_chain = Ok n /\
            last (Compare_get_children compare_chain) = Some n.
Proof.
  destruct (compare_last_child compare_chain) as [H _].
  apply H. discriminate.
Defined.

(** The handler of [TypeError] of [tree_try], asked for [ValueError]. *)
Lemma catch_true_or_none_witness :
  (catches tree_try 3 (Some ["ValueError"]) ->
   catch tree_try 3 (Some ["ValueError"]) = Ok (Some true)) /\
  (~ catches tree_try 3 (Some ["ValueError"]) ->
   catch tree_try 3 (Some ["ValueError"]) = Ok None).
Proof.
  apply (catch_true_or_none tree_try 3 (Some ["ValueError"])). reflexivity.
Defined.
